(** * Messenger: the peer-messaging base class of src/msg/Messenger.h

  A shallow embedding of [class Messenger] and of its nested
  [struct Policy].  The class is an abstract base: it owns the dispatcher
  chain, the local name, the default send priority and the [started] flag,
  and it calls out to code declared in other headers (Dispatcher.h,
  Message.h, the clock, the emergency log) and to the virtual methods a
  concrete transport overrides.  Those are interfaces here (type classes);
  every theorem holds for all their implementations.

  Conventions.
  - A C++ pointer is an address, a number of type [N]; [NULL] is 0.
  - [uint64_t] and [int] values are numbers of type [Z]; the code does no
    arithmetic on them apart from the bitwise or of [Policy].
  - Everything outside the Messenger object (the dispatchers' own state,
    the messages, the clock) is the [World]; callbacks transform it.
  - Methods are computations in a state monad that can abort (a failed
    [assert]) and that records the calls made across the class boundary,
    in order, in a trace. *)

From Stdlib Require Import ZArith NArith List String Bool Lia.
Import ListNotations.

Set Implicit Arguments.

(** ** Computations: state, abort, trace

    A computation runs from a state; it returns a value or aborts, leaves a
    final state, and emits a trace of events. *)

Inductive outcome (A : Type) :=
| Returned (a : A)
| Aborted.
Arguments Aborted {A}.

Record run (S E A : Type) := Run {
  result : outcome A;
  final : S;
  trace : list E
}.
Arguments Run {S E A}.

Definition Comp (S E A : Type) := S -> run S E A.

Definition ret {S E A} (a : A) : Comp S E A :=
  fun s => Run (Returned a) s [].

Definition bind {S E A B} (c : Comp S E A) (k : A -> Comp S E B)
  : Comp S E B :=
  fun s =>
    let r := c s in
    match result r with
    | Returned a =>
        let r' := k a (final r) in
        Run (result r') (final r') (trace r ++ trace r')
    | Aborted => Run Aborted (final r) (trace r)
    end.

(** A failed [assert]: the process aborts where it stands. *)
Definition abort {S E A} : Comp S E A := fun s => Run Aborted s [].

Definition assert {S E} (b : bool) : Comp S E unit :=
  if b then ret tt else abort.

Notation "x <- c ;; k" := (bind c (fun x => k))
  (at level 61, c at next level, right associativity).
Notation "c ;; k" := (bind c (fun _ => k))
  (at level 61, right associativity).

(** ** Pointers *)

Definition ptr := N.
Definition NULL : ptr := 0%N.

(** ** struct Messenger::Policy *)

Module Policy.

Section WithDefaultFeatures.

(** include/ceph_features.h is not part of the sources at hand: the
    baseline mask is taken as it comes. *)
Variable CEPH_FEATURES_SUPPORTED_DEFAULT : Z.

Record Policy := mk {
  lossy : bool;
  server : bool;
  throttler : ptr;
  features_supported : Z;
  features_required : Z
}.

(** [Policy()] *)
Definition default : Policy :=
  mk false false NULL CEPH_FEATURES_SUPPORTED_DEFAULT 0.

(** [Policy(bool l, bool s, uint64_t sup, uint64_t req)] *)
Definition make (l s : bool) (sup req : Z) : Policy :=
  mk l s NULL (Z.lor sup CEPH_FEATURES_SUPPORTED_DEFAULT) req.

Definition stateful_server (sup req : Z) : Policy := make false true sup req.
Definition stateless_server (sup req : Z) : Policy := make true true sup req.
Definition lossless_peer (sup req : Z) : Policy := make false false sup req.
Definition client (sup req : Z) : Policy := make false false sup req.

(** [mask] contains every bit of [base]. *)
Definition includes_mask (mask base : Z) : Prop :=
  forall i, Z.testbit base i = true -> Z.testbit mask i = true.

(** The range of [uint64_t]. *)
Definition is_uint64 (x : Z) : Prop := (0 <= x < 2 ^ 64)%Z.

End WithDefaultFeatures.

End Policy.

(** ** The Messenger object and its surroundings *)

(** Types the class uses opaquely: those of include/types.h and
    msg/msg_types.h, and the [World], the state of everything that is not a
    member of the Messenger. *)
Class Types := {
  entity_name_t : Type;
  entity_addr_t : Type;
  utime_t : Type;
  World : Type
}.

Section Messenger.

Context {T : Types}.

(** [entity_inst_t(name, addr)] *)
Record entity_inst_t := mk_inst {
  inst_name : entity_name_t;
  inst_addr : entity_addr_t
}.

(** *** Interfaces the class calls into *)

(** Dispatcher.h: the callbacks the delivery methods invoke, selected by
    the dispatcher's address (virtual dispatch).  [ms_get_authorizer]
    receives the address of the caller's local [a]: it sees its current
    value and leaves a new one next to its [bool] result.
    [ms_verify_authorizer] receives references to two buffer lists and to
    a [bool], which are addresses here; what it writes through them is a
    change of the world.  Whatever the two broadcast callbacks return is
    dropped by the caller; a [bool] stands for it. *)
Class DispatcherIface := {
  ms_dispatch : ptr -> ptr -> World -> bool * World;
  ms_handle_connect : ptr -> ptr -> World -> bool * World;
  ms_handle_reset : ptr -> ptr -> World -> bool * World;
  ms_handle_remote_reset : ptr -> ptr -> World -> bool * World;
  ms_get_authorizer :
    ptr -> Z -> ptr -> bool -> World -> (bool * ptr) * World;
  ms_verify_authorizer :
    ptr -> ptr -> Z -> Z -> ptr -> ptr -> ptr -> World -> bool * World
}.

(** Message.h, the clock and the stream output operators. *)
Class MessageIface := {
  ceph_clock_now : ptr -> World -> utime_t;
  set_dispatch_stamp : ptr -> utime_t -> World -> World;
  get_source_inst : ptr -> World -> entity_inst_t;
  print_ptr : ptr -> string;
  print_message : ptr -> World -> string;
  print_inst : entity_inst_t -> string
}.

Context {DI : DispatcherIface} {MI : MessageIface}.

(** [CEPH_MSG_PRIO_DEFAULT] of Message.h. *)
Variable CEPH_MSG_PRIO_DEFAULT : Z.

(** *** Data members *)

Record Messenger := mk_messenger {
  dispatchers : list ptr;
  _my_name : entity_name_t;
  default_send_priority : Z;
  started : bool;
  cct : ptr
}.

Record Sys := mk_sys {
  self : Messenger;
  world : World
}.

(** *** Calls that cross the class boundary *)

Inductive event :=
| Ev_set_dispatch_stamp (m : ptr) (t : utime_t)
| Ev_ms_dispatch (d m : ptr) (claimed : bool)
| Ev_ms_handle_connect (d con : ptr)
| Ev_ms_handle_reset (d con : ptr) (claimed : bool)
| Ev_ms_handle_remote_reset (d con : ptr)
| Ev_ms_get_authorizer (d : ptr) (peer_type : Z) (force_new : bool)
                       (a_in : ptr) (ret : bool) (a_out : ptr)
| Ev_ms_verify_authorizer (d con : ptr) (peer_type protocol : Z)
                          (ret : bool)
| Ev_ready
| Ev_dout_emergency (text : string).

(** *** Methods as computations *)

Definition M (A : Type) := Comp Sys event A.

Definition get_self : M Messenger := fun s => Run (Returned (self s)) s [].

Definition get_world : M World := fun s => Run (Returned (world s)) s [].

Definition modify_self (f : Messenger -> Messenger) : M unit :=
  fun s => Run (Returned tt) (mk_sys (f (self s)) (world s)) [].

(** A call into the world: the callee changes the world, the call and
    what it returned go to the trace. *)
Definition call {A} (f : World -> A * World) (ev : A -> event) : M A :=
  fun s =>
    let r := f (world s) in
    Run (Returned (fst r)) (mk_sys (self s) (snd r)) [ev (fst r)].

Definition call_void (f : World -> World) (ev : event) : M unit :=
  fun s => Run (Returned tt) (mk_sys (self s) (f (world s))) [ev].

(** *** Virtual methods left to the concrete transport

    [ready()] has an empty body in the base class and [send_message] is pure
    virtual.  An override of [ready] works on the transport's own state,
    which is part of the world; it does not come back into the dispatcher
    chain.  [send_message] is any computation at all. *)
Class TransportIface := {
  ready_impl : World -> World;
  send_message : ptr -> entity_inst_t -> M Z
}.

Context {TI : TransportIface}.

(** *** Member updates *)

Definition set_dispatchers (l : list ptr) (this : Messenger) : Messenger :=
  mk_messenger l (_my_name this) (default_send_priority this)
               (started this) (cct this).

Definition set_my_name (n : entity_name_t) (this : Messenger) : Messenger :=
  mk_messenger (dispatchers this) n (default_send_priority this)
               (started this) (cct this).

Definition set_priority (p : Z) (this : Messenger) : Messenger :=
  mk_messenger (dispatchers this) (_my_name this) p (started this) (cct this).

Definition set_started (b : bool) (this : Messenger) : Messenger :=
  mk_messenger (dispatchers this) (_my_name this)
               (default_send_priority this) b (cct this).

(** [std::list::empty], [push_front], [push_back] *)
Definition empty (l : list ptr) : bool :=
  match l with [] => true | _ :: _ => false end.
Definition push_front (d : ptr) (l : list ptr) : list ptr := d :: l.
Definition push_back (d : ptr) (l : list ptr) : list ptr := l ++ [d].

(** *** Construction and accessors *)

(** [Messenger(CephContext *cct_, entity_name_t w)] *)
Definition Messenger_new (cct_ : ptr) (w : entity_name_t) : Messenger :=
  mk_messenger [] w CEPH_MSG_PRIO_DEFAULT false cct_.

Definition get_myname : M entity_name_t :=
  this <- get_self ;; ret (_my_name this).

Definition set_myname (m : entity_name_t) : M unit :=
  modify_self (set_my_name m).

Definition set_default_send_priority (p : Z) : M unit :=
  this <- get_self ;;
  assert (negb (started this)) ;;
  modify_self (set_priority p).

Definition get_default_send_priority : M Z :=
  this <- get_self ;; ret (default_send_priority this).

(** [virtual int start()] and [virtual int shutdown()], base versions *)
Definition start : M Z :=
  modify_self (set_started true) ;; ret 0%Z.

Definition shutdown : M Z :=
  modify_self (set_started false) ;; ret 0%Z.

(** *** The dispatcher chain *)

Definition ready : M unit := call_void ready_impl Ev_ready.

Definition add_dispatcher_head (d : ptr) : M unit :=
  this <- get_self ;;
  let first := empty (dispatchers this) in
  modify_self (set_dispatchers (push_front d (dispatchers this))) ;;
  if first then ready else ret tt.

Definition add_dispatcher_tail (d : ptr) : M unit :=
  this <- get_self ;;
  let first := empty (dispatchers this) in
  modify_self (set_dispatchers (push_back d (dispatchers this))) ;;
  if first then ready else ret tt.

Definition is_ready : M bool :=
  this <- get_self ;; ret (negb (empty (dispatchers this))).

(** *** Delivery *)

(** The text streamed into [oss] by [ms_deliver_dispatch]. *)
Definition unhandled_message_text : string :=
  "ms_deliver_dispatch: fatal error: unhandled message ".

Definition unhandled_diagnostic (m : ptr) (w : World) : string :=
  (unhandled_message_text ++ print_ptr m ++ " " ++ print_message m w
     ++ " from " ++ print_inst (get_source_inst m w))%string.

Definition dout_emergency (text : string) : M unit :=
  fun s => Run (Returned tt) s [Ev_dout_emergency text].

(** The loops walk the chain from [begin()] to [end()]; a loop that can
    [return] from the method tells its caller whether it did. *)
Fixpoint dispatch_loop (m : ptr) (ps : list ptr) : M bool :=
  match ps with
  | [] => ret false
  | p :: ps' =>
      claimed <- call (ms_dispatch p m) (Ev_ms_dispatch p m) ;;
      if claimed then ret true else dispatch_loop m ps'
  end.

Definition ms_deliver_dispatch (m : ptr) : M unit :=
  this <- get_self ;;
  w <- get_world ;;
  let now := ceph_clock_now (cct this) w in
  call_void (set_dispatch_stamp m now) (Ev_set_dispatch_stamp m now) ;;
  returned <- dispatch_loop m (dispatchers this) ;;
  if returned then ret tt
  else
    w' <- get_world ;;
    dout_emergency (unhandled_diagnostic m w') ;;
    assert false.

Fixpoint connect_loop (con : ptr) (ps : list ptr) : M unit :=
  match ps with
  | [] => ret tt
  | p :: ps' =>
      call (ms_handle_connect p con) (fun _ => Ev_ms_handle_connect p con) ;;
      connect_loop con ps'
  end.

Definition ms_deliver_handle_connect (con : ptr) : M unit :=
  this <- get_self ;; connect_loop con (dispatchers this).

Fixpoint reset_loop (con : ptr) (ps : list ptr) : M bool :=
  match ps with
  | [] => ret false
  | p :: ps' =>
      claimed <- call (ms_handle_reset p con) (Ev_ms_handle_reset p con) ;;
      if claimed then ret true else reset_loop con ps'
  end.

Definition ms_deliver_handle_reset (con : ptr) : M unit :=
  this <- get_self ;;
  _ <- reset_loop con (dispatchers this) ;;
  ret tt.

Fixpoint remote_reset_loop (con : ptr) (ps : list ptr) : M unit :=
  match ps with
  | [] => ret tt
  | p :: ps' =>
      call (ms_handle_remote_reset p con)
           (fun _ => Ev_ms_handle_remote_reset p con) ;;
      remote_reset_loop con ps'
  end.

Definition ms_deliver_handle_remote_reset (con : ptr) : M unit :=
  this <- get_self ;; remote_reset_loop con (dispatchers this).

(** The loop of [ms_deliver_get_authorizer] carries the local [a]; it
    yields [Some a] when the method returns [a] from inside the loop. *)
Fixpoint authorizer_loop (peer_type : Z) (force_new : bool)
         (a : ptr) (ps : list ptr) : M (option ptr) :=
  match ps with
  | [] => ret None
  | p :: ps' =>
      r <- call (ms_get_authorizer p peer_type a force_new)
                (fun r => Ev_ms_get_authorizer p peer_type force_new a
                                               (fst r) (snd r)) ;;
      if fst r then ret (Some (snd r))
      else authorizer_loop peer_type force_new (snd r) ps'
  end.

Definition ms_deliver_get_authorizer (peer_type : Z) (force_new : bool)
  : M ptr :=
  this <- get_self ;;
  let a := 0%N in
  returned <- authorizer_loop peer_type force_new a (dispatchers this) ;;
  match returned with
  | Some a' => ret a'
  | None => ret NULL
  end.

Fixpoint verify_loop (con : ptr) (peer_type protocol : Z)
         (authorizer authorizer_reply isvalid : ptr) (ps : list ptr)
  : M bool :=
  match ps with
  | [] => ret false
  | p :: ps' =>
      ok <- call (ms_verify_authorizer p con peer_type protocol authorizer
                                       authorizer_reply isvalid)
                 (Ev_ms_verify_authorizer p con peer_type protocol) ;;
      if ok then ret true
      else verify_loop con peer_type protocol authorizer authorizer_reply
                       isvalid ps'
  end.

Definition ms_deliver_verify_authorizer (con : ptr) (peer_type protocol : Z)
           (authorizer authorizer_reply isvalid : ptr) : M bool :=
  this <- get_self ;;
  verify_loop con peer_type protocol authorizer authorizer_reply isvalid
              (dispatchers this).

(** *** Sending *)

Definition lazy_send_message (m : ptr) (dest : entity_inst_t) : M Z :=
  send_message m dest.

(** *** Reading traces *)

(** The dispatcher a callback event went to. *)
Definition callee (e : event) : option ptr :=
  match e with
  | Ev_ms_dispatch d _ _ => Some d
  | Ev_ms_handle_connect d _ => Some d
  | Ev_ms_handle_reset d _ _ => Some d
  | Ev_ms_handle_remote_reset d _ => Some d
  | Ev_ms_get_authorizer d _ _ _ _ _ => Some d
  | Ev_ms_verify_authorizer d _ _ _ _ => Some d
  | _ => None
  end.

(** The dispatchers invoked, in the order of their invocation. *)
Fixpoint invoked (t : list event) : list ptr :=
  match t with
  | [] => []
  | e :: t' =>
      match callee e with
      | Some d => d :: invoked t'
      | None => invoked t'
      end
  end.

(** [called] is the first [n] entries of [chain], and not none of them
    unless the chain is empty. *)
Definition initial_stretch (called chain : list ptr) : Prop :=
  exists n, called = firstn n chain /\ (chain = [] \/ n <> 0%nat).

(** The [bool] a claim-based callback answered with. *)
Definition answer (e : event) : option bool :=
  match e with
  | Ev_ms_dispatch _ _ b => Some b
  | Ev_ms_handle_reset _ _ b => Some b
  | Ev_ms_get_authorizer _ _ _ _ b _ => Some b
  | Ev_ms_verify_authorizer _ _ _ _ b => Some b
  | _ => None
  end.

(** Every call of [ms_dispatch] for [m] in the trace answered [false]. *)
Definition no_dispatch_claim (m : ptr) (t : list event) : Prop :=
  forall d b, In (Ev_ms_dispatch d m b) t -> b = false.

(** Every call of [ms_handle_reset] for [con] in the trace answered
    [false]. *)
Definition no_reset_claim (con : ptr) (t : list event) : Prop :=
  forall d b, In (Ev_ms_handle_reset d con b) t -> b = false.

Definition is_ready_event (e : event) : bool :=
  match e with Ev_ready => true | _ => false end.

(** How many times [ready()] was fired. *)
Definition ready_count (t : list event) : nat :=
  List.length (filter is_ready_event t).

(** *** Sequences of insertions *)

Inductive insertion :=
| At_head (d : ptr)
| At_tail (d : ptr).

Definition insert (i : insertion) : M unit :=
  match i with
  | At_head d => add_dispatcher_head d
  | At_tail d => add_dispatcher_tail d
  end.

Fixpoint insert_all (l : list insertion) : M unit :=
  match l with
  | [] => ret tt
  | i :: l' => insert i ;; insert_all l'
  end.

End Messenger.

(** [sub] occurs in [s]. *)
Definition occurs_in (sub s : string) : Prop :=
  exists before after, s = (before ++ sub ++ after)%string.

(** ** The rest of the class

    The members of [class Messenger] that take no part in delivery or in
    the chain: accessors, the methods with a fixed answer, and what the
    class does over a sequence of calls. *)

Section MessengerRest.

Context {T : Types} {DI : DispatcherIface} {MI : MessageIface}.
Context {TI : TransportIface}.

(** [get_myaddr()] is pure virtual.  It is an accessor of the transport:
    it reads the transport's state, which is part of the world, and changes
    nothing, so that the order in which [get_myinst] evaluates the two
    arguments of [entity_inst_t(...)] does not matter. *)
Class AddrIface := {
  get_myaddr_impl : World -> entity_addr_t
}.

(** [EOPNOTSUPP] of errno.h. *)
Class Errno := {
  EOPNOTSUPP : Z
}.

Context {AI : AddrIface} {EN : Errno}.

Definition get_myaddr : M entity_addr_t :=
  w <- get_world ;; ret (get_myaddr_impl w).

Definition get_myinst : M entity_inst_t :=
  name <- get_myname ;;
  addr <- get_myaddr ;;
  ret (mk_inst name addr).

(** [virtual void destroy() { }] *)
Definition destroy : M unit := ret tt.

(** [virtual int get_dispatch_queue_len() { return 0; }] *)
Definition get_dispatch_queue_len : M Z := ret 0%Z.

(** [virtual void prepare_dest(const entity_inst_t& inst) {}] *)
Definition prepare_dest (inst : entity_inst_t) : M unit := ret tt.

(** [virtual int rebind(int avoid_port) { return -EOPNOTSUPP; }] *)
Definition rebind (avoid_port : Z) : M Z := ret (- EOPNOTSUPP)%Z.

(** *** Sequences of calls

    The methods that have a body in Messenger.h, [lazy_send_message] apart,
    which is whatever the transport's [send_message] is.  [ready()] is
    public: anyone may call it, not only the two insertions. *)
Inductive method :=
| Do_ready
| Do_get_myname
| Do_get_myinst
| Do_set_myname (m : entity_name_t)
| Do_set_default_send_priority (p : Z)
| Do_get_default_send_priority
| Do_get_dispatch_queue_len
| Do_add_dispatcher_head (d : ptr)
| Do_add_dispatcher_tail (d : ptr)
| Do_is_ready
| Do_ms_deliver_dispatch (m : ptr)
| Do_ms_deliver_handle_connect (con : ptr)
| Do_ms_deliver_handle_reset (con : ptr)
| Do_ms_deliver_handle_remote_reset (con : ptr)
| Do_ms_deliver_get_authorizer (peer_type : Z) (force_new : bool)
| Do_ms_deliver_verify_authorizer (con : ptr) (peer_type protocol : Z)
                                  (authorizer authorizer_reply isvalid : ptr)
| Do_start
| Do_shutdown
| Do_destroy
| Do_prepare_dest (inst : entity_inst_t)
| Do_rebind (avoid_port : Z).

(** Runs [c] and drops what it returns. *)
Definition discard {A} (c : M A) : M unit := _ <- c ;; ret tt.

Definition invoke (c : method) : M unit :=
  match c with
  | Do_ready => ready
  | Do_get_myname => discard get_myname
  | Do_get_myinst => discard get_myinst
  | Do_set_myname m => set_myname m
  | Do_set_default_send_priority p => set_default_send_priority p
  | Do_get_default_send_priority => discard get_default_send_priority
  | Do_get_dispatch_queue_len => discard get_dispatch_queue_len
  | Do_add_dispatcher_head d => add_dispatcher_head d
  | Do_add_dispatcher_tail d => add_dispatcher_tail d
  | Do_is_ready => discard is_ready
  | Do_ms_deliver_dispatch m => ms_deliver_dispatch m
  | Do_ms_deliver_handle_connect con => ms_deliver_handle_connect con
  | Do_ms_deliver_handle_reset con => ms_deliver_handle_reset con
  | Do_ms_deliver_handle_remote_reset con =>
      ms_deliver_handle_remote_reset con
  | Do_ms_deliver_get_authorizer peer_type force_new =>
      discard (ms_deliver_get_authorizer peer_type force_new)
  | Do_ms_deliver_verify_authorizer con peer_type protocol authorizer
                                    authorizer_reply isvalid =>
      discard (ms_deliver_verify_authorizer con peer_type protocol
                                            authorizer authorizer_reply
                                            isvalid)
  | Do_start => discard start
  | Do_shutdown => discard shutdown
  | Do_destroy => destroy
  | Do_prepare_dest inst => prepare_dest inst
  | Do_rebind avoid_port => discard (rebind avoid_port)
  end.

(** One call after the other; an abort ends the sequence. *)
Fixpoint invoke_all (l : list method) : M unit :=
  match l with
  | [] => ret tt
  | c :: l' => invoke c ;; invoke_all l'
  end.

(** The chain a method leaves, given the chain it finds. *)
Definition chain_after (c : method) (chain : list ptr) : list ptr :=
  match c with
  | Do_add_dispatcher_head d => d :: chain
  | Do_add_dispatcher_tail d => chain ++ [d]
  | _ => chain
  end.

(** The direct calls of [ready()]. *)
Definition calls_ready (c : method) : bool :=
  match c with Do_ready => true | _ => false end.

(** What a call makes of the members, whether it returns or aborts. *)
Definition member_step (c : method) (this : Messenger) : Messenger :=
  match c with
  | Do_set_myname m => set_my_name m this
  | Do_set_default_send_priority p =>
      if started this then this else set_priority p this
  | Do_add_dispatcher_head d =>
      set_dispatchers (push_front d (dispatchers this)) this
  | Do_add_dispatcher_tail d =>
      set_dispatchers (push_back d (dispatchers this)) this
  | Do_start => set_started true this
  | Do_shutdown => set_started false this
  | _ => this
  end.

Definition renames (c : method) : bool :=
  match c with Do_set_myname _ => true | _ => false end.

(** *** Insertions, read as lists *)

(** The dispatchers a sequence of insertions puts at the head, and those
    it puts at the tail, in the order of the calls. *)
Fixpoint heads (l : list insertion) : list ptr :=
  match l with
  | [] => []
  | At_head d :: l' => d :: heads l'
  | At_tail _ :: l' => heads l'
  end.

Fixpoint tails (l : list insertion) : list ptr :=
  match l with
  | [] => []
  | At_head _ :: l' => tails l'
  | At_tail d :: l' => d :: tails l'
  end.

(** *** start() and shutdown() in sequence *)

Inductive lifecycle_call :=
| Start
| Shutdown.

Definition lifecycle (c : lifecycle_call) : M Z :=
  match c with
  | Start => start
  | Shutdown => shutdown
  end.

Fixpoint lifecycle_all (l : list lifecycle_call) : M unit :=
  match l with
  | [] => ret tt
  | c :: l' => lifecycle c ;; lifecycle_all l'
  end.

(** Whether the last call of [l] is [start()]; [b] when [l] is empty. *)
Definition ends_started (l : list lifecycle_call) (b : bool) : bool :=
  fold_left (fun _ c => match c with Start => true | Shutdown => false end)
            l b.

(** *** The local [a] of ms_deliver_get_authorizer, read off a trace *)

(** Every call of [ms_get_authorizer] in [t] found in [a] what the call
    before it left there, the first one finding [a]. *)
Fixpoint hands_on (a : ptr) (t : list event) : Prop :=
  match t with
  | [] => True
  | Ev_ms_get_authorizer _ _ _ a_in _ a_out :: t' =>
      a_in = a /\ hands_on a_out t'
  | _ :: t' => hands_on a t'
  end.

(** No call of [ms_get_authorizer] in [t] changed [a]. *)
Definition leaves_authorizer (e : event) : Prop :=
  match e with
  | Ev_ms_get_authorizer _ _ _ a_in _ a_out => a_out = a_in
  | _ => True
  end.

(** *** The world after a walk *)

(** The world once the dispatchers of [called] have run [callback] one
    after the other. *)
Definition world_after (callback : ptr -> World -> bool * World)
           (called : list ptr) (w : World) : World :=
  fold_left (fun w d => snd (callback d w)) called w.

End MessengerRest.

(** ** Walks of the chain, read off the callbacks

    What the dispatchers themselves answer and do when they are asked one
    after the other, each in the world the one before it left.  These say
    nothing of the Messenger: the theorems compare its methods with
    them. *)

Section Walks.

Context {T : Types} {DI : DispatcherIface}.

(** Every dispatcher of [pre], asked in order from the world [w], answers
    [false]. *)
Fixpoint declines (callback : ptr -> World -> bool * World)
         (pre : list ptr) (w : World) : bool :=
  match pre with
  | [] => true
  | d :: pre' =>
      negb (fst (callback d w)) && declines callback pre' (snd (callback d w))
  end.

(** The authorizer variable and the world once the dispatchers of [pre]
    have been asked for an authorizer in order, from the variable [a] and
    the world [w]. *)
Fixpoint authorizer_after (peer_type : Z) (force_new : bool)
         (pre : list ptr) (a : ptr) (w : World) : ptr * World :=
  match pre with
  | [] => (a, w)
  | d :: pre' =>
      let r := ms_get_authorizer d peer_type a force_new w in
      authorizer_after peer_type force_new pre' (snd (fst r)) (snd r)
  end.

(** Every dispatcher of [pre], asked for an authorizer in order, answers
    [false]. *)
Fixpoint authorizer_declines (peer_type : Z) (force_new : bool)
         (pre : list ptr) (a : ptr) (w : World) : bool :=
  match pre with
  | [] => true
  | d :: pre' =>
      let r := ms_get_authorizer d peer_type a force_new w in
      negb (fst (fst r))
      && authorizer_declines peer_type force_new pre' (snd (fst r)) (snd r)
  end.

(** The calls of [ms_get_authorizer] to the dispatchers of [pre] in order,
    with what each found in the variable, answered and left there. *)
Fixpoint authorizer_calls (peer_type : Z) (force_new : bool)
         (pre : list ptr) (a : ptr) (w : World) : list event :=
  match pre with
  | [] => []
  | d :: pre' =>
      let r := ms_get_authorizer d peer_type a force_new w in
      Ev_ms_get_authorizer d peer_type force_new a (fst (fst r)) (snd (fst r))
        :: authorizer_calls peer_type force_new pre' (snd (fst r)) (snd r)
  end.

End Walks.

(** ** A small concrete system

    Four dispatchers over a world that is a clock: every callback ticks it.
    Dispatcher 1 claims nothing.  Dispatchers 2 and 3 claim every message,
    every reset and every verification, and dispatcher 2 issues authorizer
    7.  Dispatcher 4 answers [true] to [ms_get_authorizer] and leaves the
    authorizer as it found it.  Any other address behaves like
    dispatcher 1. *)

Module Sample.

Definition claims (d : ptr) : bool := (d =? 2)%N || (d =? 3)%N.

Definition tick (w : nat) : nat := S w.

Definition T : Types := {|
  entity_name_t := Z;
  entity_addr_t := Z;
  utime_t := nat;
  World := nat
|}.

Definition callback (d arg : ptr) (w : nat) : bool * nat :=
  (claims d, tick w).

Definition get_authorizer (d : ptr) (peer_type : Z) (a : ptr)
           (force_new : bool) (w : nat) : (bool * ptr) * nat :=
  if (d =? 2)%N then ((true, 7%N), tick w)
  else if (d =? 4)%N then ((true, a), tick w)
  else ((false, a), tick w).

Definition verify_authorizer (d con : ptr) (peer_type protocol : Z)
           (authorizer authorizer_reply isvalid : ptr) (w : nat)
  : bool * nat :=
  (claims d, tick w).

(** In the order of the fields: [ms_dispatch], [ms_handle_connect],
    [ms_handle_reset], [ms_handle_remote_reset], [ms_get_authorizer],
    [ms_verify_authorizer]. *)
Definition DI : @DispatcherIface T :=
  @Build_DispatcherIface T callback callback callback callback
                         get_authorizer verify_authorizer.

(** In the order of the fields: [ceph_clock_now], [set_dispatch_stamp],
    [get_source_inst], [print_ptr], [print_message], [print_inst]. *)
Definition MI : @MessageIface T :=
  @Build_MessageIface T
    (fun c (w : nat) => w)
    (fun m (t : nat) (w : nat) => w)
    (fun m (w : nat) => @mk_inst T 0%Z 0%Z)
    (fun m => "0x7f00"%string)
    (fun m (w : nat) => "osd_ping"%string)
    (fun i => "osd.0 0.0.0.0:0/0"%string).

(** [ready_impl] does nothing, as in the base class; [send_message]
    answers 0. *)
Definition TI : @TransportIface T :=
  @Build_TransportIface T (fun w : nat => w) (fun m dest => ret 0%Z).

(** A freshly constructed Messenger at clock 0. *)
Definition fresh : @Sys T :=
  @mk_sys T (@Messenger_new T 127 1%N 0%Z) 0%nat.

(** The same with a given chain. *)
Definition with_chain (l : list ptr) : @Sys T :=
  @mk_sys T (set_dispatchers l (@Messenger_new T 127 1%N 0%Z)) 0%nat.

End Sample.

(** The transport of the concrete system sits at address 42, and its
    [EOPNOTSUPP] is that of Linux. *)
Module SampleRest.

Definition AI : @AddrIface Sample.T :=
  @Build_AddrIface Sample.T (fun w : nat => 42%Z).

Definition EN : Errno := Build_Errno 95.

(** As [Sample.get_authorizer], with one more dispatcher: 6 writes
    authorizer 9 and answers [false]. *)
Definition get_authorizer_6 (d : ptr) (peer_type : Z) (a : ptr)
           (force_new : bool) (w : nat) : (bool * ptr) * nat :=
  if (d =? 6)%N then ((false, 9%N), Sample.tick w)
  else Sample.get_authorizer d peer_type a force_new w.

Definition DI_6 : @DispatcherIface Sample.T :=
  @Build_DispatcherIface Sample.T Sample.callback Sample.callback
                         Sample.callback Sample.callback
                         get_authorizer_6 Sample.verify_authorizer.

End SampleRest.

(** ** What the specification says of authorizer issuance *)

Section SpecAuthorizer.

Context {T : Types} {DI : DispatcherIface}.

(** Follows the words of the specification, not the code: the walk stops at
    the first dispatcher producing a non-null authorizer and returns that
    authorizer; when none produces one the result is null.  To be compared
    with [authorizer_loop] and [ms_deliver_get_authorizer]. *)
Fixpoint spec_authorizer_loop (peer_type : Z) (force_new : bool)
         (a : ptr) (ps : list ptr)
  : M (option ptr) :=
  match ps with
  | [] => ret None
  | p :: ps' =>
      r <- call (ms_get_authorizer p peer_type a force_new)
                (fun r => Ev_ms_get_authorizer p peer_type force_new a
                                               (fst r) (snd r)) ;;
      if negb (snd r =? NULL)%N then ret (Some (snd r))
      else spec_authorizer_loop peer_type force_new (snd r) ps'
  end.

Definition spec_get_authorizer (peer_type : Z) (force_new : bool)
  : M ptr :=
  this <- get_self ;;
  returned <- spec_authorizer_loop peer_type force_new NULL
                                   (dispatchers this) ;;
  match returned with
  | Some a' => ret a'
  | None => ret NULL
  end.

End SpecAuthorizer.

(** ** Properties of Policy *)

Module PolicyFacts.
Import Policy.

Section WithDefaultFeatures.

(** [DEF] is [CEPH_FEATURES_SUPPORTED_DEFAULT]. *)
Variable DEF : Z.

Lemma lor_includes_default sup : includes_mask (Z.lor sup DEF) DEF.
Proof.
  intros i Hi. rewrite Z.lor_spec, Hi. apply orb_true_r.
Qed.

(** Or-ing two [uint64_t] masks stays in range: nothing wraps around. *)
Lemma make_uint64 l s sup req :
  is_uint64 sup -> is_uint64 DEF ->
  is_uint64 (features_supported (make DEF l s sup req)).
Proof.
  unfold is_uint64, make. cbn [features_supported].
  intros [Hs0 Hs] [Hd0 Hd]. split.
  - apply Z.lor_nonneg. split; assumption.
  - destruct (Z.eq_dec (Z.lor sup DEF) 0) as [E | NE]; [rewrite E; lia |].
    assert (0 <= Z.lor sup DEF)%Z by (apply Z.lor_nonneg; split; assumption).
    apply Z.log2_lt_pow2; [lia |].
    rewrite Z.log2_lor by assumption.
    apply Z.max_lub_lt.
    + destruct (Z.eq_dec sup 0) as [-> | ?]; [cbn; lia |].
      apply Z.log2_lt_pow2; lia.
    + destruct (Z.eq_dec DEF 0) as [E0 | ?]; [rewrite E0; cbn; lia |].
      apply Z.log2_lt_pow2; lia.
Qed.

(** C6.  For all masks [S] and [R]: [stateful_server] is not lossy and is
    a server; [stateless_server] is lossy and is a server; [lossless_peer]
    and [client] are neither.  In all four, [features_supported] is [S]
    or-ed with the baseline default, hence contains every bit of the
    baseline, and is the baseline itself when [S] is 0;
    [features_required] is [R]. *)
Theorem policy_constructors (S R : Z) :
  (lossy (stateful_server DEF S R) = false /\
   server (stateful_server DEF S R) = true) /\
  (lossy (stateless_server DEF S R) = true /\
   server (stateless_server DEF S R) = true) /\
  (lossy (lossless_peer DEF S R) = false /\
   server (lossless_peer DEF S R) = false) /\
  (lossy (client DEF S R) = false /\
   server (client DEF S R) = false) /\
  Forall (fun ctor : Z -> Z -> Policy =>
            features_supported (ctor S R) = Z.lor S DEF /\
            includes_mask (features_supported (ctor S R)) DEF /\
            features_supported (ctor 0%Z R) = DEF /\
            features_required (ctor S R) = R)
         [stateful_server DEF; stateless_server DEF;
          lossless_peer DEF; client DEF].
Proof.
  repeat split; repeat constructor; simpl;
    auto using lor_includes_default.
Qed.

End WithDefaultFeatures.

End PolicyFacts.

(** ** Properties of the Messenger *)

Section MessengerFacts.

Context {T : Types} {DI : DispatcherIface} {MI : MessageIface}.
Context {TI : TransportIface}.

Implicit Types (s : Sys) (ps pre rest chain called : list ptr).
Implicit Types (d m con : ptr) (t : list event).

(** *** Traces *)

Lemma invoked_app t1 t2 : invoked (t1 ++ t2) = invoked t1 ++ invoked t2.
Proof.
  induction t1 as [| e t1 IH]; simpl; [reflexivity |].
  destruct (callee e); simpl; rewrite IH; reflexivity.
Qed.

Lemma invoked_calls (f : ptr -> event) ps :
  (forall d, callee (f d) = Some d) -> invoked (map f ps) = ps.
Proof.
  intros Hf. induction ps as [| p ps IH]; simpl; [reflexivity |].
  rewrite Hf, IH. reflexivity.
Qed.

Lemma ready_count_app t1 t2 :
  ready_count (t1 ++ t2) = (ready_count t1 + ready_count t2)%nat.
Proof.
  unfold ready_count. rewrite filter_app, length_app. reflexivity.
Qed.

Lemma firstn_succ_length pre c rest :
  firstn (S (List.length pre)) (pre ++ c :: rest) = pre ++ [c].
Proof.
  induction pre as [| p pre IH]; [reflexivity |].
  change (p :: firstn (S (List.length pre)) (pre ++ c :: rest)
          = p :: (pre ++ [c])).
  rewrite IH. reflexivity.
Qed.

(** What a claim-based walk calls: the entries before the one it stops at
    and that one, or the whole chain. *)
Lemma initial_stretch_split pre rest :
  initial_stretch (pre ++ firstn 1 rest) (pre ++ rest).
Proof.
  destruct rest as [| c rest'].
  - exists (List.length (pre ++ [])). rewrite firstn_all. simpl.
    split; [reflexivity |].
    destruct pre; [left; reflexivity | right; discriminate].
  - exists (S (List.length pre)). rewrite firstn_succ_length.
    split; [reflexivity | right; discriminate].
Qed.

(** The initial stretches of [F; E; D] that are not empty. *)
Lemma initial_stretch_of_three (F E D : ptr) called :
  initial_stretch called [F; E; D] ->
  called = [F] \/ called = [F; E] \/ called = [F; E; D].
Proof.
  intros (n & -> & [Hnil | Hn]); [discriminate Hnil |].
  destruct n as [| [| [| [| n]]]]; simpl; auto. congruence.
Qed.

(** *** The loops *)

(** The three loops that stop at the first [true] have one proof. *)
Ltac claim_loop ps s callback :=
  revert s; induction ps as [| p ps IH]; intros s;
  [ split; [reflexivity |]; exists [], []; repeat split
  | simpl; unfold bind, call; simpl;
    let c := eval cbv beta in (callback p (world s)) in
    destruct c as [[|] w'] eqn:?; simpl;
    [ split; [reflexivity |]; exists [], (p :: ps); repeat split
    | destruct (IH (mk_sys (self s) w')) as [Hself (pre & rest & -> & H)];
      split; [exact Hself |];
      exists (p :: pre), rest; split; [reflexivity |];
      destruct rest; destruct H as [-> ->]; split; reflexivity ] ].

(** The loop of [ms_deliver_dispatch] calls a prefix of the chain, each
    entry once and in order; all but the last call answer [false], and the
    loop reports a [return] exactly when the last call answered [true]. *)
Lemma dispatch_loop_run m ps s :
  let r := dispatch_loop m ps s in
  self (final r) = self s /\
  exists pre rest, ps = pre ++ rest /\
    match rest with
    | [] =>
        result r = Returned false /\
        trace r = map (fun d => Ev_ms_dispatch d m false) pre
    | claimer :: _ =>
        result r = Returned true /\
        trace r = map (fun d => Ev_ms_dispatch d m false) pre
                      ++ [Ev_ms_dispatch claimer m true]
    end.
Proof. claim_loop ps s (fun p => ms_dispatch p m). Qed.

Lemma reset_loop_run con ps s :
  let r := reset_loop con ps s in
  self (final r) = self s /\
  exists pre rest, ps = pre ++ rest /\
    match rest with
    | [] =>
        result r = Returned false /\
        trace r = map (fun d => Ev_ms_handle_reset d con false) pre
    | claimer :: _ =>
        result r = Returned true /\
        trace r = map (fun d => Ev_ms_handle_reset d con false) pre
                      ++ [Ev_ms_handle_reset claimer con true]
    end.
Proof. claim_loop ps s (fun p => ms_handle_reset p con). Qed.

Lemma verify_loop_run con (peer_type protocol : Z)
      (authorizer authorizer_reply isvalid : ptr) ps s :
  let r := verify_loop con peer_type protocol authorizer authorizer_reply
                       isvalid ps s in
  let ev d := Ev_ms_verify_authorizer d con peer_type protocol in
  self (final r) = self s /\
  exists pre rest, ps = pre ++ rest /\
    match rest with
    | [] =>
        result r = Returned false /\
        trace r = map (fun d => ev d false) pre
    | claimer :: _ =>
        result r = Returned true /\
        trace r = map (fun d => ev d false) pre ++ [ev claimer true]
    end.
Proof.
  claim_loop ps s
    (fun p => ms_verify_authorizer p con peer_type protocol authorizer
                                   authorizer_reply isvalid).
Qed.

(** The broadcast loops call the whole chain, whatever is returned. *)
Lemma connect_loop_run con ps s :
  let r := connect_loop con ps s in
  self (final r) = self s /\
  result r = Returned tt /\
  trace r = map (fun d => Ev_ms_handle_connect d con) ps.
Proof.
  revert s. induction ps as [| p ps IH]; intros s.
  - repeat split.
  - simpl. unfold bind, call. simpl.
    destruct (IH (mk_sys (self s) (snd (ms_handle_connect p con (world s)))))
      as (Hself & -> & ->).
    repeat split. exact Hself.
Qed.

Lemma remote_reset_loop_run con ps s :
  let r := remote_reset_loop con ps s in
  self (final r) = self s /\
  result r = Returned tt /\
  trace r = map (fun d => Ev_ms_handle_remote_reset d con) ps.
Proof.
  revert s. induction ps as [| p ps IH]; intros s.
  - repeat split.
  - simpl. unfold bind, call. simpl.
    destruct (IH (mk_sys (self s)
                         (snd (ms_handle_remote_reset p con (world s)))))
      as (Hself & -> & ->).
    repeat split. exact Hself.
Qed.

(** The loop of [ms_deliver_get_authorizer] calls the chain in order up to
    the first dispatcher whose [ms_get_authorizer] answers [true], and then
    yields what that call left in [a]. *)
Lemma authorizer_loop_run peer_type force_new (a : ptr) ps s :
  let r := authorizer_loop peer_type force_new a ps s in
  self (final r) = self s /\
  exists pre rest, ps = pre ++ rest /\
    invoked (trace r) = pre ++ firstn 1 rest /\
    match rest with
    | [] =>
        result r = Returned None /\
        Forall (fun e => answer e = Some false) (trace r)
    | d :: _ =>
        exists t a_in a_out,
          trace r = t ++ [Ev_ms_get_authorizer d peer_type force_new
                                               a_in true a_out] /\
          Forall (fun e => answer e = Some false) t /\
          result r = Returned (Some a_out)
    end.
Proof.
  revert a s. induction ps as [| p ps IH]; intros a s.
  - split; [reflexivity |]. exists [], []. repeat split. constructor.
  - simpl. unfold bind, call. simpl.
    destruct (ms_get_authorizer p peer_type a force_new (world s))
      as [[[|] a'] w'] eqn:Hcall; simpl.
    + split; [reflexivity |]. exists [], (p :: ps). repeat split.
      exists [], a, a'. repeat split. constructor.
    + destruct (IH a' (mk_sys (self s) w'))
        as [Hself (pre & rest & -> & Hinv & H)].
      split; [exact Hself |].
      exists (p :: pre), rest. split; [reflexivity |].
      split; [simpl; rewrite Hinv; reflexivity |].
      destruct rest as [| d rest'].
      * destruct H as [-> Hall]. split; [reflexivity |].
        constructor; [reflexivity | exact Hall].
      * destruct H as (t & a_in & a_out & -> & Hall & ->).
        exists (Ev_ms_get_authorizer p peer_type force_new a false a' :: t),
          a_in, a_out.
        repeat split. constructor; [reflexivity | exact Hall].
Qed.

(** *** The delivery methods, one by one *)

(** [ms_deliver_dispatch]: the stamp, the calls up to the claimer, and, in
    the absence of a claimer, the diagnostic and the abort. *)
Lemma ms_deliver_dispatch_run m s :
  let now := ceph_clock_now (cct (self s)) (world s) in
  let r := ms_deliver_dispatch m s in
  exists pre rest, dispatchers (self s) = pre ++ rest /\
    match rest with
    | claimer :: _ =>
        result r = Returned tt /\
        trace r = Ev_set_dispatch_stamp m now
                    :: map (fun d => Ev_ms_dispatch d m false) pre
                    ++ [Ev_ms_dispatch claimer m true]
    | [] =>
        result r = Aborted /\
        trace r = Ev_set_dispatch_stamp m now
                    :: map (fun d => Ev_ms_dispatch d m false) pre
                    ++ [Ev_dout_emergency
                          (unhandled_diagnostic m (world (final r)))]
    end.
Proof.
  intros now r. subst r. unfold ms_deliver_dispatch, bind. simpl. fold now.
  set (s1 := mk_sys (self s) (set_dispatch_stamp m now (world s))).
  destruct (dispatch_loop_run m (dispatchers (self s)) s1)
    as [_ (pre & rest & Hps & H)].
  exists pre, rest. split; [exact Hps |].
  destruct rest as [| c rest']; destruct H as [-> ->]; simpl.
  - split; reflexivity.
  - split; [reflexivity |]. rewrite app_nil_r. reflexivity.
Qed.

Lemma ms_deliver_dispatch_invoked m s :
  initial_stretch (invoked (trace (ms_deliver_dispatch m s)))
                  (dispatchers (self s)).
Proof.
  destruct (ms_deliver_dispatch_run m s) as (pre & rest & Hps & H).
  rewrite Hps.
  replace (invoked (trace (ms_deliver_dispatch m s)))
    with (pre ++ firstn 1 rest); [apply initial_stretch_split |].
  destruct rest as [| c rest']; destruct H as [_ ->]; simpl;
    rewrite invoked_app, invoked_calls by reflexivity; reflexivity.
Qed.

Lemma ms_deliver_handle_connect_run con s :
  let r := ms_deliver_handle_connect con s in
  self (final r) = self s /\
  result r = Returned tt /\
  trace r = map (fun d => Ev_ms_handle_connect d con)
                (dispatchers (self s)) /\
  invoked (trace r) = dispatchers (self s).
Proof.
  unfold ms_deliver_handle_connect, bind. simpl.
  destruct (connect_loop_run con (dispatchers (self s)) s) as (H & -> & ->).
  simpl. rewrite invoked_calls by reflexivity. repeat split. exact H.
Qed.

Lemma ms_deliver_handle_remote_reset_run con s :
  let r := ms_deliver_handle_remote_reset con s in
  self (final r) = self s /\
  result r = Returned tt /\
  trace r = map (fun d => Ev_ms_handle_remote_reset d con)
                (dispatchers (self s)) /\
  invoked (trace r) = dispatchers (self s).
Proof.
  unfold ms_deliver_handle_remote_reset, bind. simpl.
  destruct (remote_reset_loop_run con (dispatchers (self s)) s)
    as (H & -> & ->).
  simpl. rewrite invoked_calls by reflexivity. repeat split. exact H.
Qed.

(** [ms_deliver_handle_reset] returns in every case, and its trace holds
    dispatcher calls only. *)
Lemma ms_deliver_handle_reset_run con s :
  let r := ms_deliver_handle_reset con s in
  self (final r) = self s /\
  result r = Returned tt /\
  exists pre rest, dispatchers (self s) = pre ++ rest /\
    trace r = map (fun d => Ev_ms_handle_reset d con false) pre
                ++ match rest with
                   | claimer :: _ => [Ev_ms_handle_reset claimer con true]
                   | [] => []
                   end.
Proof.
  unfold ms_deliver_handle_reset, bind. simpl.
  destruct (reset_loop_run con (dispatchers (self s)) s)
    as [Hself (pre & rest & Hps & H)].
  split; [| split].
  - destruct rest; destruct H as [-> _]; exact Hself.
  - destruct rest; destruct H as [-> _]; reflexivity.
  - exists pre, rest. split; [exact Hps |].
    destruct rest; destruct H as [-> ->]; simpl; rewrite ?app_nil_r;
      reflexivity.
Qed.

Lemma ms_deliver_handle_reset_invoked con s :
  initial_stretch (invoked (trace (ms_deliver_handle_reset con s)))
                  (dispatchers (self s)).
Proof.
  destruct (ms_deliver_handle_reset_run con s)
    as (_ & _ & pre & rest & Hps & ->).
  rewrite Hps, invoked_app, invoked_calls by reflexivity.
  replace (invoked match rest with
                   | [] => []
                   | claimer :: _ => [Ev_ms_handle_reset claimer con true]
                   end) with (firstn 1 rest) by (destruct rest; reflexivity).
  apply initial_stretch_split.
Qed.

(** [ms_deliver_get_authorizer] is its loop, with null for a loop that
    ran to the end of the chain. *)
Lemma ms_deliver_get_authorizer_run peer_type force_new s :
  let l := authorizer_loop peer_type force_new 0%N (dispatchers (self s)) s in
  let r := ms_deliver_get_authorizer peer_type force_new s in
  trace r = trace l /\
  final r = final l /\
  result r = match result l with
             | Returned (Some a) => Returned a
             | Returned None => Returned NULL
             | Aborted => Aborted
             end.
Proof.
  unfold ms_deliver_get_authorizer, bind. simpl.
  destruct (result (authorizer_loop peer_type force_new 0%N
                      (dispatchers (self s)) s)) as [[a |] |];
    simpl; rewrite ?app_nil_r; repeat split.
Qed.

Lemma ms_deliver_get_authorizer_invoked peer_type force_new s :
  initial_stretch
    (invoked (trace (ms_deliver_get_authorizer peer_type force_new s)))
    (dispatchers (self s)).
Proof.
  destruct (ms_deliver_get_authorizer_run peer_type force_new s)
    as (-> & _ & _).
  destruct (authorizer_loop_run peer_type force_new 0%N
              (dispatchers (self s)) s)
    as [_ (pre & rest & Hps & -> & _)].
  rewrite Hps. apply initial_stretch_split.
Qed.

Lemma ms_deliver_verify_authorizer_invoked con (peer_type protocol : Z)
      (authorizer authorizer_reply isvalid : ptr) s :
  initial_stretch
    (invoked (trace (ms_deliver_verify_authorizer
                       con peer_type protocol authorizer authorizer_reply
                       isvalid s)))
    (dispatchers (self s)).
Proof.
  unfold ms_deliver_verify_authorizer, bind. simpl.
  destruct (verify_loop_run con peer_type protocol authorizer
              authorizer_reply isvalid (dispatchers (self s)) s)
    as [_ (pre & rest & Hps & H)].
  rewrite Hps at 2.
  replace (invoked (trace (verify_loop con peer_type protocol authorizer
                             authorizer_reply isvalid
                             (dispatchers (self s)) s)))
    with (pre ++ firstn 1 rest); [apply initial_stretch_split |].
  destruct rest; destruct H as [_ ->];
    rewrite ?invoked_app, invoked_calls by reflexivity;
    rewrite ?app_nil_r; reflexivity.
Qed.

(** No delivery changes a member of the Messenger, the chain least of
    all: what holds of the chain before a delivery holds after it. *)
Lemma delivery_leaves_messenger (x : ptr) s :
  self (final (ms_deliver_dispatch x s)) = self s /\
  self (final (ms_deliver_handle_connect x s)) = self s /\
  self (final (ms_deliver_handle_reset x s)) = self s /\
  self (final (ms_deliver_handle_remote_reset x s)) = self s /\
  (forall peer_type force_new,
      self (final (ms_deliver_get_authorizer peer_type force_new s))
      = self s) /\
  (forall peer_type protocol authorizer authorizer_reply isvalid,
      self (final (ms_deliver_verify_authorizer
                     x peer_type protocol authorizer authorizer_reply
                     isvalid s)) = self s).
Proof.
  split; [| split; [| split; [| split; [| split]]]].
  - unfold ms_deliver_dispatch, bind. simpl.
    set (s1 := mk_sys (self s) _).
    destruct (dispatch_loop_run x (dispatchers (self s)) s1)
      as [Hself (pre & rest & _ & H)].
    destruct rest; destruct H as [-> _]; exact Hself.
  - apply ms_deliver_handle_connect_run.
  - apply ms_deliver_handle_reset_run.
  - apply ms_deliver_handle_remote_reset_run.
  - intros peer_type force_new.
    destruct (ms_deliver_get_authorizer_run peer_type force_new s)
      as (_ & -> & _).
    apply authorizer_loop_run.
  - intros. unfold ms_deliver_verify_authorizer, bind. simpl.
    apply verify_loop_run.
Qed.

(** *** The loops against the walks of the callbacks *)

Lemma world_after_app (cb : ptr -> World -> bool * World) l1 l2 (w : World) :
  world_after cb (l1 ++ l2) w = world_after cb l2 (world_after cb l1 w).
Proof. apply fold_left_app. Qed.

Lemma declines_app (cb : ptr -> World -> bool * World) l1 l2 (w : World) :
  declines cb (l1 ++ l2) w
  = declines cb l1 w && declines cb l2 (world_after cb l1 w).
Proof.
  revert w. induction l1 as [| d l1 IH]; intros w; [reflexivity |].
  simpl. rewrite IH, andb_assoc. reflexivity.
Qed.

(** A chain splits at the first dispatcher that answers [true] when its
    turn comes, if there is one. *)
Lemma first_claim_split (cb : ptr -> World -> bool * World) ps (w : World) :
  exists pre rest, ps = pre ++ rest /\
    declines cb pre w = true /\
    match rest with
    | [] => True
    | c :: _ => fst (cb c (world_after cb pre w)) = true
    end.
Proof.
  revert w. induction ps as [| p ps IH]; intros w.
  - exists [], []. repeat split.
  - destruct (fst (cb p w)) eqn:Hp.
    + exists [], (p :: ps). repeat split. exact Hp.
    + destruct (IH (snd (cb p w))) as (pre & rest & -> & Hd & Hc).
      exists (p :: pre), rest. split; [reflexivity |]. split.
      * simpl. rewrite Hp, Hd. reflexivity.
      * exact Hc.
Qed.

Lemma declines_claimed (cb : ptr -> World -> bool * World) pre c post
      (w : World) :
  fst (cb c (world_after cb pre w)) = true ->
  declines cb (pre ++ c :: post) w = false.
Proof.
  intros Hc. rewrite declines_app. simpl. rewrite Hc.
  apply andb_false_r.
Qed.

Ltac loop_declined ps s :=
  revert s; induction ps as [| p ps IH]; intros s Hd;
  [ destruct s; reflexivity
  | simpl in Hd; apply andb_true_iff in Hd; destruct Hd as [Hp Hd];
    apply negb_true_iff in Hp;
    simpl; unfold bind, call; simpl; rewrite Hp;
    rewrite (IH (mk_sys (self s) _) Hd); reflexivity ].

Ltac loop_claimed pre s :=
  revert s; induction pre as [| p pre IH]; intros s Hd Hc;
  [ simpl in *; unfold bind, call; simpl; rewrite Hc; reflexivity
  | simpl in Hd; apply andb_true_iff in Hd; destruct Hd as [Hp Hd];
    apply negb_true_iff in Hp;
    simpl; unfold bind, call; simpl; rewrite Hp;
    rewrite (IH (mk_sys (self s) _) Hd Hc); reflexivity ].

(** The loop of [ms_deliver_dispatch] on a chain all of which declines. *)
Lemma dispatch_loop_declined m ps s :
  declines (fun d => ms_dispatch d m) ps (world s) = true ->
  dispatch_loop m ps s
  = Run (Returned false)
        (mk_sys (self s) (world_after (fun d => ms_dispatch d m) ps (world s)))
        (map (fun d => Ev_ms_dispatch d m false) ps).
Proof. loop_declined ps s. Qed.

(** The same loop on a chain whose first claimer is [c]. *)
Lemma dispatch_loop_claimed m pre c post s :
  declines (fun d => ms_dispatch d m) pre (world s) = true ->
  fst (ms_dispatch c m (world_after (fun d => ms_dispatch d m) pre (world s)))
  = true ->
  dispatch_loop m (pre ++ c :: post) s
  = Run (Returned true)
        (mk_sys (self s)
           (snd (ms_dispatch c m
                   (world_after (fun d => ms_dispatch d m) pre (world s)))))
        (map (fun d => Ev_ms_dispatch d m false) pre
           ++ [Ev_ms_dispatch c m true]).
Proof. loop_claimed pre s. Qed.

Lemma reset_loop_declined con ps s :
  declines (fun d => ms_handle_reset d con) ps (world s) = true ->
  reset_loop con ps s
  = Run (Returned false)
        (mk_sys (self s)
           (world_after (fun d => ms_handle_reset d con) ps (world s)))
        (map (fun d => Ev_ms_handle_reset d con false) ps).
Proof. loop_declined ps s. Qed.

Lemma reset_loop_claimed con pre c post s :
  declines (fun d => ms_handle_reset d con) pre (world s) = true ->
  fst (ms_handle_reset c con
         (world_after (fun d => ms_handle_reset d con) pre (world s)))
  = true ->
  reset_loop con (pre ++ c :: post) s
  = Run (Returned true)
        (mk_sys (self s)
           (snd (ms_handle_reset c con
                   (world_after (fun d => ms_handle_reset d con) pre
                                (world s)))))
        (map (fun d => Ev_ms_handle_reset d con false) pre
           ++ [Ev_ms_handle_reset c con true]).
Proof. loop_claimed pre s. Qed.

Lemma verify_loop_declined con (peer_type protocol : Z)
      (authorizer authorizer_reply isvalid : ptr) ps s :
  let ask d := ms_verify_authorizer d con peer_type protocol authorizer
                                    authorizer_reply isvalid in
  declines ask ps (world s) = true ->
  verify_loop con peer_type protocol authorizer authorizer_reply isvalid ps s
  = Run (Returned false)
        (mk_sys (self s) (world_after ask ps (world s)))
        (map (fun d => Ev_ms_verify_authorizer d con peer_type protocol false)
             ps).
Proof. cbv zeta. loop_declined ps s. Qed.

Lemma verify_loop_claimed con (peer_type protocol : Z)
      (authorizer authorizer_reply isvalid : ptr) pre c post s :
  let ask d := ms_verify_authorizer d con peer_type protocol authorizer
                                    authorizer_reply isvalid in
  declines ask pre (world s) = true ->
  fst (ask c (world_after ask pre (world s))) = true ->
  verify_loop con peer_type protocol authorizer authorizer_reply isvalid
              (pre ++ c :: post) s
  = Run (Returned true)
        (mk_sys (self s) (snd (ask c (world_after ask pre (world s)))))
        (map (fun d => Ev_ms_verify_authorizer d con peer_type protocol false)
             pre
           ++ [Ev_ms_verify_authorizer c con peer_type protocol true]).
Proof. cbv zeta. loop_claimed pre s. Qed.

(** The broadcast loops: every callback of the chain, in order. *)
Lemma connect_loop_walk con ps s :
  connect_loop con ps s
  = Run (Returned tt)
        (mk_sys (self s)
           (world_after (fun d => ms_handle_connect d con) ps (world s)))
        (map (fun d => Ev_ms_handle_connect d con) ps).
Proof.
  revert s. induction ps as [| p ps IH]; intros s.
  - destruct s; reflexivity.
  - simpl. unfold bind, call. simpl. rewrite IH. reflexivity.
Qed.

Lemma remote_reset_loop_walk con ps s :
  remote_reset_loop con ps s
  = Run (Returned tt)
        (mk_sys (self s)
           (world_after (fun d => ms_handle_remote_reset d con) ps (world s)))
        (map (fun d => Ev_ms_handle_remote_reset d con) ps).
Proof.
  revert s. induction ps as [| p ps IH]; intros s.
  - destruct s; reflexivity.
  - simpl. unfold bind, call. simpl. rewrite IH. reflexivity.
Qed.

(** The loop of [ms_deliver_get_authorizer]. *)
Lemma authorizer_first_true_split peer_type force_new ps (a : ptr)
      (w : World) :
  exists pre rest, ps = pre ++ rest /\
    authorizer_declines peer_type force_new pre a w = true /\
    match rest with
    | [] => True
    | d :: _ =>
        let st := authorizer_after peer_type force_new pre a w in
        fst (fst (ms_get_authorizer d peer_type (fst st) force_new (snd st)))
        = true
    end.
Proof.
  revert a w. induction ps as [| p ps IH]; intros a w.
  - exists [], []. repeat split.
  - destruct (fst (fst (ms_get_authorizer p peer_type a force_new w)))
      eqn:Hp.
    + exists [], (p :: ps). repeat split. exact Hp.
    + destruct (IH (snd (fst (ms_get_authorizer p peer_type a force_new w)))
                   (snd (ms_get_authorizer p peer_type a force_new w)))
        as (pre & rest & -> & Hd & Hc).
      exists (p :: pre), rest. split; [reflexivity |]. split.
      * simpl. rewrite Hp, Hd. reflexivity.
      * exact Hc.
Qed.

Lemma authorizer_calls_decline peer_type force_new ps (a : ptr) (w : World) :
  authorizer_declines peer_type force_new ps a w = true ->
  Forall (fun e => answer e = Some false)
         (authorizer_calls peer_type force_new ps a w).
Proof.
  revert a w. induction ps as [| p ps IH]; intros a w Hd; [constructor |].
  simpl in Hd. apply andb_true_iff in Hd. destruct Hd as [Hp Hd].
  apply negb_true_iff in Hp. simpl. constructor.
  - simpl. rewrite Hp. reflexivity.
  - apply IH, Hd.
Qed.

Lemma invoked_authorizer_calls peer_type force_new ps (a : ptr) (w : World) :
  invoked (authorizer_calls peer_type force_new ps a w) = ps.
Proof.
  revert a w. induction ps as [| p ps IH]; intros a w; [reflexivity |].
  simpl. rewrite IH. reflexivity.
Qed.

Lemma authorizer_loop_declined peer_type force_new ps (a : ptr) s :
  authorizer_declines peer_type force_new ps a (world s) = true ->
  authorizer_loop peer_type force_new a ps s
  = Run (Returned None)
        (mk_sys (self s)
           (snd (authorizer_after peer_type force_new ps a (world s))))
        (authorizer_calls peer_type force_new ps a (world s)).
Proof.
  revert a s. induction ps as [| p ps IH]; intros a s Hd.
  - destruct s; reflexivity.
  - simpl in Hd. apply andb_true_iff in Hd. destruct Hd as [Hp Hd].
    apply negb_true_iff in Hp.
    simpl. unfold bind, call. simpl. rewrite Hp.
    rewrite (IH _ (mk_sys (self s) _) Hd). reflexivity.
Qed.

Lemma authorizer_loop_claimed peer_type force_new pre d post (a : ptr) s :
  let st := authorizer_after peer_type force_new pre a (world s) in
  let r1 := ms_get_authorizer d peer_type (fst st) force_new (snd st) in
  authorizer_declines peer_type force_new pre a (world s) = true ->
  fst (fst r1) = true ->
  authorizer_loop peer_type force_new a (pre ++ d :: post) s
  = Run (Returned (Some (snd (fst r1))))
        (mk_sys (self s) (snd r1))
        (authorizer_calls peer_type force_new pre a (world s)
           ++ [Ev_ms_get_authorizer d peer_type force_new (fst st) true
                                    (snd (fst r1))]).
Proof.
  cbv zeta. revert a s. induction pre as [| p pre IH]; intros a s Hd Hc.
  - simpl in *. unfold bind, call. simpl. rewrite Hc. reflexivity.
  - simpl in Hd. apply andb_true_iff in Hd. destruct Hd as [Hp Hd].
    apply negb_true_iff in Hp.
    simpl. unfold bind, call. simpl. rewrite Hp.
    rewrite (IH _ (mk_sys (self s) _) Hd Hc). reflexivity.
Qed.

(** *** The delivery methods against the walks *)

Lemma ms_deliver_dispatch_declined m s :
  let now := ceph_clock_now (cct (self s)) (world s) in
  let stamped := set_dispatch_stamp m now (world s) in
  let ask d := ms_dispatch d m in
  let left := world_after ask (dispatchers (self s)) stamped in
  declines ask (dispatchers (self s)) stamped = true ->
  ms_deliver_dispatch m s
  = Run Aborted (mk_sys (self s) left)
        (Ev_set_dispatch_stamp m now
           :: map (fun d => Ev_ms_dispatch d m false) (dispatchers (self s))
           ++ [Ev_dout_emergency (unhandled_diagnostic m left)]).
Proof.
  cbv zeta. intros Hd. unfold ms_deliver_dispatch, bind. simpl.
  rewrite (dispatch_loop_declined m (dispatchers (self s))
             (mk_sys (self s) _) Hd).
  reflexivity.
Qed.

Lemma ms_deliver_dispatch_claimed m pre claimer post s :
  let now := ceph_clock_now (cct (self s)) (world s) in
  let stamped := set_dispatch_stamp m now (world s) in
  let ask d := ms_dispatch d m in
  dispatchers (self s) = pre ++ claimer :: post ->
  declines ask pre stamped = true ->
  fst (ask claimer (world_after ask pre stamped)) = true ->
  ms_deliver_dispatch m s
  = Run (Returned tt)
        (mk_sys (self s) (snd (ask claimer (world_after ask pre stamped))))
        (Ev_set_dispatch_stamp m now
           :: map (fun d => Ev_ms_dispatch d m false) pre
           ++ [Ev_ms_dispatch claimer m true]).
Proof.
  cbv zeta. intros Hps Hd Hc. unfold ms_deliver_dispatch, bind. simpl.
  rewrite Hps.
  rewrite (dispatch_loop_claimed m pre claimer post (mk_sys (self s) _)
             Hd Hc).
  simpl. rewrite app_nil_r. reflexivity.
Qed.

Lemma ms_deliver_handle_connect_walk con s :
  ms_deliver_handle_connect con s
  = Run (Returned tt)
        (mk_sys (self s)
           (world_after (fun d => ms_handle_connect d con)
                        (dispatchers (self s)) (world s)))
        (map (fun d => Ev_ms_handle_connect d con) (dispatchers (self s))).
Proof.
  unfold ms_deliver_handle_connect, bind. simpl.
  rewrite connect_loop_walk. reflexivity.
Qed.

Lemma ms_deliver_handle_remote_reset_walk con s :
  ms_deliver_handle_remote_reset con s
  = Run (Returned tt)
        (mk_sys (self s)
           (world_after (fun d => ms_handle_remote_reset d con)
                        (dispatchers (self s)) (world s)))
        (map (fun d => Ev_ms_handle_remote_reset d con)
             (dispatchers (self s))).
Proof.
  unfold ms_deliver_handle_remote_reset, bind. simpl.
  rewrite remote_reset_loop_walk. reflexivity.
Qed.

Lemma ms_deliver_handle_reset_declined con s :
  let ask d := ms_handle_reset d con in
  declines ask (dispatchers (self s)) (world s) = true ->
  ms_deliver_handle_reset con s
  = Run (Returned tt)
        (mk_sys (self s) (world_after ask (dispatchers (self s)) (world s)))
        (map (fun d => Ev_ms_handle_reset d con false)
             (dispatchers (self s))).
Proof.
  cbv zeta. intros Hd. unfold ms_deliver_handle_reset, bind. simpl.
  rewrite (reset_loop_declined con (dispatchers (self s)) s Hd).
  simpl. rewrite app_nil_r. reflexivity.
Qed.

Lemma ms_deliver_handle_reset_claimed con pre claimer post s :
  let ask d := ms_handle_reset d con in
  dispatchers (self s) = pre ++ claimer :: post ->
  declines ask pre (world s) = true ->
  fst (ask claimer (world_after ask pre (world s))) = true ->
  ms_deliver_handle_reset con s
  = Run (Returned tt)
        (mk_sys (self s) (snd (ask claimer (world_after ask pre (world s)))))
        (map (fun d => Ev_ms_handle_reset d con false) pre
           ++ [Ev_ms_handle_reset claimer con true]).
Proof.
  cbv zeta. intros Hps Hd Hc. unfold ms_deliver_handle_reset, bind. simpl.
  rewrite Hps. rewrite (reset_loop_claimed con pre claimer post s Hd Hc).
  simpl. rewrite app_nil_r. reflexivity.
Qed.

Lemma ms_deliver_verify_authorizer_declined con (peer_type protocol : Z)
      (authorizer authorizer_reply isvalid : ptr) s :
  let ask d := ms_verify_authorizer d con peer_type protocol authorizer
                                    authorizer_reply isvalid in
  declines ask (dispatchers (self s)) (world s) = true ->
  ms_deliver_verify_authorizer con peer_type protocol authorizer
                               authorizer_reply isvalid s
  = Run (Returned false)
        (mk_sys (self s) (world_after ask (dispatchers (self s)) (world s)))
        (map (fun d => Ev_ms_verify_authorizer d con peer_type protocol false)
             (dispatchers (self s))).
Proof.
  cbv zeta. intros Hd. unfold ms_deliver_verify_authorizer, bind. simpl.
  rewrite (verify_loop_declined con peer_type protocol authorizer
             authorizer_reply isvalid (dispatchers (self s)) s Hd).
  reflexivity.
Qed.

Lemma ms_deliver_verify_authorizer_claimed con (peer_type protocol : Z)
      (authorizer authorizer_reply isvalid : ptr) pre claimer post s :
  let ask d := ms_verify_authorizer d con peer_type protocol authorizer
                                    authorizer_reply isvalid in
  dispatchers (self s) = pre ++ claimer :: post ->
  declines ask pre (world s) = true ->
  fst (ask claimer (world_after ask pre (world s))) = true ->
  ms_deliver_verify_authorizer con peer_type protocol authorizer
                               authorizer_reply isvalid s
  = Run (Returned true)
        (mk_sys (self s) (snd (ask claimer (world_after ask pre (world s)))))
        (map (fun d => Ev_ms_verify_authorizer d con peer_type protocol false)
             pre
           ++ [Ev_ms_verify_authorizer claimer con peer_type protocol true]).
Proof.
  cbv zeta. intros Hps Hd Hc. unfold ms_deliver_verify_authorizer, bind.
  simpl. rewrite Hps.
  rewrite (verify_loop_claimed con peer_type protocol authorizer
             authorizer_reply isvalid pre claimer post s Hd Hc).
  reflexivity.
Qed.

Lemma ms_deliver_get_authorizer_declined peer_type force_new s :
  authorizer_declines peer_type force_new (dispatchers (self s)) NULL
                      (world s) = true ->
  ms_deliver_get_authorizer peer_type force_new s
  = Run (Returned NULL)
        (mk_sys (self s)
           (snd (authorizer_after peer_type force_new (dispatchers (self s))
                                  NULL (world s))))
        (authorizer_calls peer_type force_new (dispatchers (self s)) NULL
                          (world s)).
Proof.
  intros Hd. unfold ms_deliver_get_authorizer, bind. simpl.
  rewrite (authorizer_loop_declined peer_type force_new
             (dispatchers (self s)) 0%N s Hd).
  simpl. rewrite app_nil_r. reflexivity.
Qed.

Lemma ms_deliver_get_authorizer_claimed peer_type force_new pre d post s :
  let st := authorizer_after peer_type force_new pre NULL (world s) in
  let r1 := ms_get_authorizer d peer_type (fst st) force_new (snd st) in
  dispatchers (self s) = pre ++ d :: post ->
  authorizer_declines peer_type force_new pre NULL (world s) = true ->
  fst (fst r1) = true ->
  ms_deliver_get_authorizer peer_type force_new s
  = Run (Returned (snd (fst r1)))
        (mk_sys (self s) (snd r1))
        (authorizer_calls peer_type force_new pre NULL (world s)
           ++ [Ev_ms_get_authorizer d peer_type force_new (fst st) true
                                    (snd (fst r1))]).
Proof.
  cbv zeta. intros Hps Hd Hc. unfold ms_deliver_get_authorizer, bind. simpl.
  rewrite Hps.
  rewrite (authorizer_loop_claimed peer_type force_new pre d post 0%N s
             Hd Hc).
  simpl. rewrite app_nil_r. reflexivity.
Qed.

(** *** Message dispatch *)

(** C2.  [ms_deliver_dispatch] first stamps the message with the current
    time; the dispatchers are asked about the stamped message.  It then
    calls the dispatchers in chain order and stops at the first whose
    [ms_dispatch] answers [true]: the chain is [pre ++ claimer :: _] where
    every dispatcher of [pre], asked in its turn, answers [false] and the
    claimer, asked after them, answers [true]; every entry of [pre] and the
    claimer are called once, in that order, and no entry after the claimer
    is called, nor has any effect on the world.  With no claimer the whole
    chain is called before the diagnostic.  The claimer is the one the
    callbacks make it, not the one a trace names: whenever the chain is
    [pre ++ claimer :: post] with [pre] declining and [claimer] claiming,
    the run is the stamp, the calls of [pre] and the call of [claimer]. *)
Theorem ms_deliver_dispatch_stops_at_first_claim m s :
  let now := ceph_clock_now (cct (self s)) (world s) in
  let stamped := set_dispatch_stamp m now (world s) in
  let ask d := ms_dispatch d m in
  let r := ms_deliver_dispatch m s in
  (exists pre rest, dispatchers (self s) = pre ++ rest /\
     declines ask pre stamped = true /\
     match rest with
     | claimer :: _ =>
         fst (ask claimer (world_after ask pre stamped)) = true /\
         result r = Returned tt /\
         trace r = Ev_set_dispatch_stamp m now
                     :: map (fun d => Ev_ms_dispatch d m false) pre
                     ++ [Ev_ms_dispatch claimer m true] /\
         invoked (trace r) = pre ++ [claimer] /\
         world (final r) = snd (ask claimer (world_after ask pre stamped))
     | [] =>
         result r = Aborted /\
         trace r = Ev_set_dispatch_stamp m now
                     :: map (fun d => Ev_ms_dispatch d m false) pre
                     ++ [Ev_dout_emergency
                           (unhandled_diagnostic m (world (final r)))] /\
         invoked (trace r) = pre /\
         world (final r) = world_after ask pre stamped
     end) /\
  (forall pre claimer post,
      dispatchers (self s) = pre ++ claimer :: post ->
      declines ask pre stamped = true ->
      fst (ask claimer (world_after ask pre stamped)) = true ->
      r = Run (Returned tt)
              (mk_sys (self s)
                 (snd (ask claimer (world_after ask pre stamped))))
              (Ev_set_dispatch_stamp m now
                 :: map (fun d => Ev_ms_dispatch d m false) pre
                 ++ [Ev_ms_dispatch claimer m true])) /\
  match dispatchers (self s) with
  | head :: _ =>
      nth_error (trace r) 1 =
        Some (Ev_ms_dispatch head m
                (fst (ms_dispatch head m
                        (set_dispatch_stamp m now (world s)))))
  | [] => True
  end.
Proof.
  intros now stamped ask r. split; [| split].
  - destruct (first_claim_split ask (dispatchers (self s)) stamped)
      as (pre & rest & Hps & Hd & Hc).
    exists pre, rest. split; [exact Hps |]. split; [exact Hd |].
    destruct rest as [| c rest'].
    + rewrite app_nil_r in Hps. subst pre.
      pose proof (ms_deliver_dispatch_declined m s Hd) as E.
      fold r in E. rewrite E. cbn [result trace final world].
      repeat split. simpl.
      rewrite invoked_app, invoked_calls by reflexivity. apply app_nil_r.
    + split; [exact Hc |].
      pose proof (ms_deliver_dispatch_claimed m pre c rest' s Hps Hd Hc)
        as E.
      fold r in E. rewrite E. cbn [result trace final world].
      repeat split. simpl.
      rewrite invoked_app, invoked_calls by reflexivity. reflexivity.
  - intros pre claimer post Hps Hd Hc.
    exact (ms_deliver_dispatch_claimed m pre claimer post s Hps Hd Hc).
  - subst r. unfold ms_deliver_dispatch, bind. simpl. fold now.
    destruct (dispatchers (self s)) as [| head tl]; [exact I |].
    simpl. unfold bind, call. simpl.
    destruct (fst (ms_dispatch head m (set_dispatch_stamp m now (world s))));
      simpl.
    + reflexivity.
    + destruct (result (dispatch_loop m tl _)) as [[|] |]; reflexivity.
Qed.

Lemma occurs_in_parts a b c : occurs_in b (a ++ b ++ c)%string.
Proof. exists a, c. reflexivity. Qed.

Lemma append_assoc (a b c : string) :
  ((a ++ b) ++ c = a ++ (b ++ c))%string.
Proof. induction a as [| x a IH]; simpl; [| rewrite IH]; reflexivity. Qed.

Lemma append_nil_r (a : string) : (a ++ "" = a)%string.
Proof. induction a as [| x a IH]; simpl; [| rewrite IH]; reflexivity. Qed.

(** The diagnostic holds the fixed text, the message (its address and its
    printed form) and the printed source instance. *)
Lemma unhandled_diagnostic_contents m (w : World) :
  let text := unhandled_diagnostic m w in
  occurs_in unhandled_message_text text /\
  occurs_in (print_ptr m) text /\
  occurs_in (print_message m w) text /\
  occurs_in (print_inst (get_source_inst m w)) text.
Proof.
  unfold unhandled_diagnostic. cbv zeta. repeat split.
  - exists EmptyString. eexists. reflexivity.
  - apply occurs_in_parts.
  - exists (unhandled_message_text ++ print_ptr m ++ " ")%string,
      (" from " ++ print_inst (get_source_inst m w))%string.
    rewrite !append_assoc. reflexivity.
  - exists (unhandled_message_text ++ print_ptr m ++ " "
              ++ print_message m w ++ " from ")%string, EmptyString.
    rewrite !append_assoc, append_nil_r. reflexivity.
Qed.

(** C1.  For every chain, the empty one included, and every message: if
    every call of [ms_dispatch] made by [ms_deliver_dispatch] answers
    [false], the method does not return but aborts.  Before that every
    dispatcher of the chain has been called, and the last thing the method
    does is to emit a diagnostic, which holds the unhandled-message text,
    the message and its source instance. *)
Theorem ms_deliver_dispatch_unclaimed_aborts m s :
  let now := ceph_clock_now (cct (self s)) (world s) in
  let r := ms_deliver_dispatch m s in
  let text := unhandled_diagnostic m (world (final r)) in
  no_dispatch_claim m (trace r) ->
  result r = Aborted /\
  result r <> Returned tt /\
  trace r = Ev_set_dispatch_stamp m now
              :: map (fun d => Ev_ms_dispatch d m false) (dispatchers (self s))
              ++ [Ev_dout_emergency text] /\
  occurs_in unhandled_message_text text /\
  occurs_in (print_ptr m) text /\
  occurs_in (print_message m (world (final r))) text /\
  occurs_in (print_inst (get_source_inst m (world (final r)))) text.
Proof.
  intros now r text Hno.
  destruct (ms_deliver_dispatch_run m s) as (pre & rest & Hps & H).
  fold r now in H.
  destruct rest as [| c rest'].
  - destruct H as [Hres Htr]. rewrite app_nil_r in Hps. subst pre.
    split; [exact Hres |]. split; [rewrite Hres; discriminate |].
    split; [exact Htr |]. apply unhandled_diagnostic_contents.
  - destruct H as [_ Htr]. exfalso.
    assert (true = false) as E; [| discriminate E].
    apply (Hno c). rewrite Htr. right. apply in_or_app. right. left.
    reflexivity.
Qed.

(** *** Broadcast events *)

(** C3.  [ms_deliver_handle_connect] and [ms_deliver_handle_remote_reset]
    call every entry of the chain once, in chain order, and return,
    whatever the dispatchers return: the calls are those of the whole
    chain, and the world left is the one the callbacks [ms_handle_connect]
    (or [ms_handle_remote_reset]) of all the entries have made, each
    working on what the one before it left.  No callback is skipped and
    none runs twice for one entry. *)
Theorem broadcast_reaches_every_dispatcher con s :
  let rc := ms_deliver_handle_connect con s in
  let rr := ms_deliver_handle_remote_reset con s in
  (result rc = Returned tt /\
   trace rc = map (fun d => Ev_ms_handle_connect d con)
                  (dispatchers (self s)) /\
   invoked (trace rc) = dispatchers (self s) /\
   world (final rc)
   = world_after (fun d => ms_handle_connect d con) (dispatchers (self s))
                 (world s) /\
   self (final rc) = self s) /\
  (result rr = Returned tt /\
   trace rr = map (fun d => Ev_ms_handle_remote_reset d con)
                  (dispatchers (self s)) /\
   invoked (trace rr) = dispatchers (self s) /\
   world (final rr)
   = world_after (fun d => ms_handle_remote_reset d con)
                 (dispatchers (self s)) (world s) /\
   self (final rr) = self s).
Proof.
  cbv zeta.
  rewrite ms_deliver_handle_connect_walk, ms_deliver_handle_remote_reset_walk.
  cbn [result trace final world self].
  rewrite !invoked_calls by reflexivity. repeat split.
Qed.

(** *** Local reset *)

(** C9.  If no dispatcher claims a local reset, [ms_deliver_handle_reset]
    returns normally after calling every dispatcher of the chain, in order:
    the trace holds those calls and nothing else, so there is no diagnostic,
    and the method does not abort. *)
Theorem ms_deliver_handle_reset_unclaimed_returns con s :
  let r := ms_deliver_handle_reset con s in
  no_reset_claim con (trace r) ->
  result r = Returned tt /\
  trace r = map (fun d => Ev_ms_handle_reset d con false)
                (dispatchers (self s)) /\
  invoked (trace r) = dispatchers (self s) /\
  (forall text, ~ In (Ev_dout_emergency text) (trace r)).
Proof.
  intros r Hno.
  destruct (ms_deliver_handle_reset_run con s)
    as (_ & Hres & pre & rest & Hps & Htr).
  fold r in Hres, Htr.
  destruct rest as [| c rest'].
  - rewrite app_nil_r in Hps, Htr. subst pre.
    split; [exact Hres |]. split; [exact Htr |]. rewrite Htr. split.
    + apply invoked_calls. reflexivity.
    + intros text Hin. apply in_map_iff in Hin.
      destruct Hin as (d & Hd & _). discriminate Hd.
  - exfalso. assert (true = false) as E; [| discriminate E].
    apply (Hno c). rewrite Htr. apply in_or_app. right. left. reflexivity.
Qed.

(** *** The chain and the ready signal *)

Lemma add_dispatcher_head_run d s :
  add_dispatcher_head d s =
  Run (Returned tt)
      (mk_sys (set_dispatchers (d :: dispatchers (self s)) (self s))
              (if empty (dispatchers (self s)) then ready_impl (world s)
               else world s))
      (if empty (dispatchers (self s)) then [Ev_ready] else []).
Proof.
  unfold add_dispatcher_head, bind. simpl.
  destruct (dispatchers (self s)); reflexivity.
Qed.

Lemma add_dispatcher_tail_run d s :
  add_dispatcher_tail d s =
  Run (Returned tt)
      (mk_sys (set_dispatchers (dispatchers (self s) ++ [d]) (self s))
              (if empty (dispatchers (self s)) then ready_impl (world s)
               else world s))
      (if empty (dispatchers (self s)) then [Ev_ready] else []).
Proof.
  unfold add_dispatcher_tail, bind. simpl.
  destruct (dispatchers (self s)); reflexivity.
Qed.

(** An insertion fires [ready()] exactly when it finds the chain empty,
    and leaves the chain non-empty. *)
Lemma insert_run i s :
  let r := insert i s in
  result r = Returned tt /\
  trace r = (if empty (dispatchers (self s)) then [Ev_ready] else []) /\
  empty (dispatchers (self (final r))) = false.
Proof.
  destruct i as [d | d]; cbv zeta; unfold insert.
  - rewrite add_dispatcher_head_run. repeat split.
  - rewrite add_dispatcher_tail_run. repeat split. simpl.
    destruct (dispatchers (self s)); reflexivity.
Qed.

(** Insertions into a non-empty chain never fire [ready()]. *)
Lemma insert_all_nonempty l s :
  empty (dispatchers (self s)) = false ->
  let r := insert_all l s in
  result r = Returned tt /\
  ready_count (trace r) = 0%nat /\
  empty (dispatchers (self (final r))) = false.
Proof.
  revert s. induction l as [| i l IH]; intros s Hne.
  - repeat split. exact Hne.
  - simpl. unfold bind.
    destruct (insert_run i s) as (Hres & Htr & Hne').
    rewrite Hres. simpl. rewrite Htr, Hne.
    destruct (IH (final (insert i s)) Hne') as (-> & Hc & Hf).
    repeat split; assumption.
Qed.

(** C4.  From a newly constructed Messenger and for every sequence of
    [add_dispatcher_head] and [add_dispatcher_tail] calls: [ready()] is
    fired by the first call of the sequence, the one that finds the chain
    empty, and by no later call, so that it has been fired once in all as
    soon as there has been an insertion (and not at all before).  More
    generally an insertion fires [ready()] exactly when it finds the chain
    empty, and it leaves the chain non-empty.  [is_ready()] answers whether
    the chain is non-empty. *)
Theorem ready_fires_once_on_first_insertion
        (prio : Z) (cct_ : ptr) (w : entity_name_t) (w0 : World)
        (ops : list insertion) :
  let s0 := mk_sys (Messenger_new prio cct_ w) w0 in
  let r := insert_all ops s0 in
  result r = Returned tt /\
  match ops with
  | [] =>
      ready_count (trace r) = 0%nat /\
      result (is_ready (final r)) = Returned false
  | first :: later =>
      trace (insert first s0) = [Ev_ready] /\
      ready_count (trace (insert_all later (final (insert first s0))))
        = 0%nat /\
      ready_count (trace r) = 1%nat /\
      result (is_ready (final r)) = Returned true
  end /\
  (forall i s,
      trace (insert i s)
        = (if empty (dispatchers (self s)) then [Ev_ready] else []) /\
      empty (dispatchers (self (final (insert i s)))) = false) /\
  (forall s,
      result (is_ready s) = Returned (negb (empty (dispatchers (self s))))).
Proof.
  intros s0 r. subst r.
  assert (Hgen : forall i s,
             trace (insert i s)
               = (if empty (dispatchers (self s)) then [Ev_ready] else []) /\
             empty (dispatchers (self (final (insert i s)))) = false)
    by (intros i s; destruct (insert_run i s) as (_ & ? & ?); split;
        assumption).
  assert (Hready : forall s,
             result (is_ready s)
               = Returned (negb (empty (dispatchers (self s)))))
    by reflexivity.
  destruct ops as [| first later].
  - split; [reflexivity |]. split; [split; reflexivity |].
    split; assumption.
  - destruct (insert_run first s0) as (Hres & Htr & Hne).
    destruct (insert_all_nonempty later (final (insert first s0)) Hne)
      as (Hres' & Hc & Hf).
    simpl in Htr.
    assert (Hrun : result (insert_all (first :: later) s0) = Returned tt /\
                   trace (insert_all (first :: later) s0)
                     = Ev_ready :: trace (insert_all later
                                            (final (insert first s0))) /\
                   final (insert_all (first :: later) s0)
                     = final (insert_all later (final (insert first s0)))).
    { simpl. unfold bind. rewrite Hres. simpl. rewrite Hres', Htr.
      repeat split. }
    destruct Hrun as (Hr1 & Hr2 & Hr3).
    split; [exact Hr1 |]. split; [| split; assumption].
    split; [exact Htr |]. split; [exact Hc |]. split.
    + rewrite Hr2. change (Ev_ready :: ?t) with ([@Ev_ready T] ++ t).
      rewrite ready_count_app, Hc. reflexivity.
    + rewrite Hready, Hr3, Hf. reflexivity.
Qed.

(** *** Order of delivery *)

(** C5.  [add_dispatcher_head] puts the dispatcher in front.  After
    [add_dispatcher_head(D)], [add_dispatcher_head(E)],
    [add_dispatcher_head(F)] on an empty chain, the chain is [F; E; D] and
    every later delivery, in whatever state the world is, goes through it in
    that order: the two broadcasts call F, E, D, and the four claim-based
    deliveries call F, then E, then D, as far as the claimer. *)
Theorem add_dispatcher_head_order (D E F : ptr) s :
  dispatchers (self s) = [] ->
  let r := (add_dispatcher_head D ;; add_dispatcher_head E ;;
            add_dispatcher_head F) s in
  let as_far_as_claimer called :=
    called = [F] \/ called = [F; E] \/ called = [F; E; D] in
  result r = Returned tt /\
  dispatchers (self (final r)) = [F; E; D] /\
  forall (w : World) (x : ptr),
    let s' := mk_sys (self (final r)) w in
    invoked (trace (ms_deliver_handle_connect x s')) = [F; E; D] /\
    invoked (trace (ms_deliver_handle_remote_reset x s')) = [F; E; D] /\
    as_far_as_claimer (invoked (trace (ms_deliver_dispatch x s'))) /\
    as_far_as_claimer (invoked (trace (ms_deliver_handle_reset x s'))) /\
    (forall peer_type force_new,
        as_far_as_claimer
          (invoked (trace (ms_deliver_get_authorizer peer_type force_new
                                                     s')))) /\
    (forall peer_type protocol authorizer authorizer_reply isvalid,
        as_far_as_claimer
          (invoked (trace (ms_deliver_verify_authorizer
                             x peer_type protocol authorizer
                             authorizer_reply isvalid s')))).
Proof.
  intros Hempty r far.
  assert (Hr : result r = Returned tt /\
               dispatchers (self (final r)) = [F; E; D]).
  { subst r. unfold bind. rewrite !add_dispatcher_head_run.
    cbn [result final trace self world dispatchers set_dispatchers].
    rewrite Hempty. split; reflexivity. }
  destruct Hr as [Hres Hchain].
  split; [exact Hres |]. split; [exact Hchain |].
  intros w x s'.
  assert (Hs' : dispatchers (self s') = [F; E; D]) by exact Hchain.
  destruct (ms_deliver_handle_connect_run x s') as (_ & _ & _ & Hc).
  destruct (ms_deliver_handle_remote_reset_run x s') as (_ & _ & _ & Hrr).
  rewrite Hs' in Hc, Hrr. split; [exact Hc |]. split; [exact Hrr |].
  subst far. cbv beta.
  split; [| split; [| split]]; intros; apply initial_stretch_of_three;
    rewrite <- Hs'.
  - apply ms_deliver_dispatch_invoked.
  - apply ms_deliver_handle_reset_invoked.
  - apply ms_deliver_get_authorizer_invoked.
  - apply ms_deliver_verify_authorizer_invoked.
Qed.

(** *** Lifecycle *)

(** C7.  While [started] is true, [set_default_send_priority(p)] trips its
    assertion: the call aborts and the priority is left alone.  While
    [started] is false it returns and the default send priority is [p].
    [started] is true after [start()], so that [start()] followed by the
    setter aborts, and false in a newly constructed Messenger. *)
Theorem set_default_send_priority_only_before_start (p : Z) s :
  let r := set_default_send_priority p s in
  (if started (self s)
   then result r = Aborted /\ final r = s
   else result r = Returned tt /\
        final r = mk_sys (set_priority p (self s)) (world s) /\
        result (get_default_send_priority (final r)) = Returned p) /\
  started (self (final (start s))) = true /\
  result ((start ;; set_default_send_priority p) s) = Aborted /\
  (forall prio cct_ w,
      started (Messenger_new prio cct_ w) = false).
Proof.
  unfold set_default_send_priority, start, bind. simpl.
  destruct s as [[l n q [|] c] w]; simpl; repeat split.
Qed.

(** *** Authorizers *)

(** C8, as the code has it.  [ms_deliver_get_authorizer] calls the
    dispatchers in chain order and stops at the first whose
    [ms_get_authorizer] answers [true]; it returns what that call left in
    the local [a], null or not.  The chain is [pre ++ d :: _] where every
    dispatcher of [pre], asked in its turn with what the one before it left
    in [a], answers [false], and [d], asked after them, answers [true]; the
    result is what [d]'s call leaves in [a], and the dispatchers behind [d]
    are neither called nor felt.  If no call answers [true], every
    dispatcher of the chain has been called and the result is null,
    whatever the calls left in [a]. *)
Theorem ms_deliver_get_authorizer_stops_at_first_true
        (peer_type : Z) (force_new : bool) s :
  let r := ms_deliver_get_authorizer peer_type force_new s in
  let declined pre :=
    authorizer_declines peer_type force_new pre NULL (world s) in
  let after pre := authorizer_after peer_type force_new pre NULL (world s) in
  let calls pre := authorizer_calls peer_type force_new pre NULL (world s) in
  let ask d st :=
    ms_get_authorizer d peer_type (fst st) force_new (snd st) in
  (exists pre rest, dispatchers (self s) = pre ++ rest /\
     invoked (trace r) = pre ++ firstn 1 rest /\
     declined pre = true /\
     Forall (fun e => answer e = Some false) (calls pre) /\
     match rest with
     | [] =>
         result r = Returned NULL /\
         trace r = calls pre /\
         world (final r) = snd (after pre)
     | d :: _ =>
         fst (fst (ask d (after pre))) = true /\
         result r = Returned (snd (fst (ask d (after pre)))) /\
         trace r = calls pre
                     ++ [Ev_ms_get_authorizer d peer_type force_new
                           (fst (after pre)) true
                           (snd (fst (ask d (after pre))))] /\
         world (final r) = snd (ask d (after pre))
     end) /\
  (forall pre d post,
      dispatchers (self s) = pre ++ d :: post ->
      declined pre = true ->
      fst (fst (ask d (after pre))) = true ->
      r = Run (Returned (snd (fst (ask d (after pre)))))
              (mk_sys (self s) (snd (ask d (after pre))))
              (calls pre
                 ++ [Ev_ms_get_authorizer d peer_type force_new
                       (fst (after pre)) true
                       (snd (fst (ask d (after pre))))])) /\
  (declined (dispatchers (self s)) = true ->
   r = Run (Returned NULL)
           (mk_sys (self s) (snd (after (dispatchers (self s)))))
           (calls (dispatchers (self s)))).
Proof.
  intros r declined after calls ask. split; [| split].
  - destruct (authorizer_first_true_split peer_type force_new
                (dispatchers (self s)) NULL (world s))
      as (pre & rest & Hps & Hd & Hc).
    exists pre, rest. split; [exact Hps |].
    pose proof (authorizer_calls_decline peer_type force_new pre NULL
                  (world s) Hd) as Hall.
    destruct rest as [| d rest'].
    + rewrite app_nil_r in Hps. subst pre.
      pose proof (ms_deliver_get_authorizer_declined peer_type force_new s
                    Hd) as E.
      fold r in E. rewrite E. cbn [result trace final world].
      rewrite invoked_authorizer_calls, app_nil_r. repeat split; assumption.
    + pose proof (ms_deliver_get_authorizer_claimed
                    peer_type force_new pre d rest' s Hps Hd Hc) as E.
      cbv zeta in E. fold r in E. rewrite E.
      cbn [result trace final world].
      rewrite invoked_app, invoked_authorizer_calls.
      repeat split; assumption.
  - intros pre d post Hps Hd Hc.
    exact (ms_deliver_get_authorizer_claimed peer_type force_new pre d post
             s Hps Hd Hc).
  - intros Hd.
    exact (ms_deliver_get_authorizer_declined peer_type force_new s Hd).
Qed.

(** *** Sending *)

(** C10.  The base-class [lazy_send_message] by peer instance is
    [send_message] by peer instance, whatever the transport makes of the
    latter: same result, same final state, same trace. *)
Theorem lazy_send_message_is_send_message (m : ptr) (dest : entity_inst_t) s :
  lazy_send_message m dest s = send_message m dest s /\
  result (lazy_send_message m dest s) = result (send_message m dest s).
Proof. split; reflexivity. Qed.

End MessengerFacts.

(** ** Properties of the rest of the class *)

Section MessengerRestFacts.

Context {T : Types} {DI : DispatcherIface} {MI : MessageIface}.
Context {TI : TransportIface} {AI : AddrIface} {EN : Errno}.

Implicit Types (s : Sys) (ps pre rest chain called : list ptr).
Implicit Types (d m con : ptr) (t : list event).

(** *** Sequencing *)

Lemma bind_returned {A B} (c : M A) (k : A -> M B) s a :
  result (c s) = Returned a ->
  bind c k s = Run (result (k a (final (c s))))
                   (final (k a (final (c s))))
                   (trace (c s) ++ trace (k a (final (c s)))).
Proof. intros H. unfold bind. rewrite H. reflexivity. Qed.

Lemma bind_aborted {A B} (c : M A) (k : A -> M B) s :
  result (c s) = Aborted ->
  bind c k s = Run Aborted (final (c s)) (trace (c s)).
Proof. intros H. unfold bind. rewrite H. reflexivity. Qed.

(** [discard c] is [c] but for the value returned. *)
Lemma discard_run {A} (c : M A) s :
  final (discard c s) = final (c s) /\
  trace (discard c s) = trace (c s) /\
  (result (discard c s) = Aborted <-> result (c s) = Aborted).
Proof.
  unfold discard, bind.
  destruct (result (c s)) as [a |]; simpl; rewrite ?app_nil_r;
    repeat split; intros; try discriminate; reflexivity.
Qed.

(** *** Traces without [ready()] *)

Lemma ready_count_calls (f : ptr -> event) ps :
  (forall d, is_ready_event (f d) = false) -> ready_count (map f ps) = 0%nat.
Proof.
  intros Hf. unfold ready_count.
  induction ps as [| p ps IH]; simpl; [reflexivity |].
  rewrite Hf. exact IH.
Qed.

Lemma ready_count_answers t :
  Forall (fun e => answer e = Some false) t -> ready_count t = 0%nat.
Proof.
  unfold ready_count. induction 1 as [| e t He _ IH]; simpl; [reflexivity |].
  destruct e; simpl in *; try discriminate He; exact IH.
Qed.

Lemma ms_deliver_dispatch_no_ready m s :
  ready_count (trace (ms_deliver_dispatch m s)) = 0%nat.
Proof.
  destruct (ms_deliver_dispatch_run m s) as (pre & rest & _ & H).
  destruct rest; destruct H as [_ ->];
    change (?e :: ?l ++ ?l') with ([e] ++ l ++ l');
    rewrite !ready_count_app, ready_count_calls by reflexivity; reflexivity.
Qed.

Lemma ms_deliver_handle_reset_no_ready con s :
  ready_count (trace (ms_deliver_handle_reset con s)) = 0%nat.
Proof.
  destruct (ms_deliver_handle_reset_run con s)
    as (_ & _ & pre & rest & _ & ->).
  rewrite ready_count_app, ready_count_calls by reflexivity.
  destruct rest; reflexivity.
Qed.

Lemma ms_deliver_get_authorizer_no_ready peer_type force_new s :
  ready_count (trace (ms_deliver_get_authorizer peer_type force_new s))
  = 0%nat.
Proof.
  destruct (ms_deliver_get_authorizer_run peer_type force_new s)
    as (-> & _ & _).
  destruct (authorizer_loop_run peer_type force_new 0%N
              (dispatchers (self s)) s) as [_ (pre & rest & _ & _ & H)].
  destruct rest as [| d rest'].
  - apply ready_count_answers, H.
  - destruct H as (t & a_in & a_out & -> & Hall & _).
    rewrite ready_count_app, (ready_count_answers Hall). reflexivity.
Qed.

(** [ms_deliver_verify_authorizer]: the calls up to the first [true]. *)
Lemma ms_deliver_verify_authorizer_run con (peer_type protocol : Z)
      (authorizer authorizer_reply isvalid : ptr) s :
  let r := ms_deliver_verify_authorizer con peer_type protocol authorizer
                                        authorizer_reply isvalid s in
  let ev d := Ev_ms_verify_authorizer d con peer_type protocol in
  self (final r) = self s /\
  exists pre rest, dispatchers (self s) = pre ++ rest /\
    match rest with
    | [] =>
        result r = Returned false /\
        trace r = map (fun d => ev d false) pre
    | claimer :: _ =>
        result r = Returned true /\
        trace r = map (fun d => ev d false) pre ++ [ev claimer true]
    end.
Proof.
  unfold ms_deliver_verify_authorizer, bind. simpl.
  apply verify_loop_run.
Qed.

Lemma ms_deliver_verify_authorizer_no_ready con (peer_type protocol : Z)
      (authorizer authorizer_reply isvalid : ptr) s :
  ready_count (trace (ms_deliver_verify_authorizer
                        con peer_type protocol authorizer authorizer_reply
                        isvalid s)) = 0%nat.
Proof.
  destruct (ms_deliver_verify_authorizer_run con peer_type protocol
              authorizer authorizer_reply isvalid s)
    as [_ (pre & rest & _ & H)].
  destruct rest; destruct H as [_ ->];
    rewrite ?ready_count_app, ready_count_calls by reflexivity; reflexivity.
Qed.

(** *** One call *)

(** What a call does to the chain, and whether it fires [ready()]. *)
Lemma invoke_chain (c : method) s :
  let r := invoke c s in
  dispatchers (self (final r)) = chain_after c (dispatchers (self s)) /\
  ready_count (trace r)
  = match c with
    | Do_ready => 1%nat
    | Do_add_dispatcher_head _ | Do_add_dispatcher_tail _ =>
        if empty (dispatchers (self s)) then 1%nat else 0%nat
    | _ => 0%nat
    end.
Proof.
  destruct c; cbv zeta; unfold invoke, chain_after;
    try (rewrite (proj1 (discard_run _ s)),
                 (proj1 (proj2 (discard_run _ s))));
    try (repeat split; reflexivity).
  - (* set_default_send_priority *)
    unfold set_default_send_priority, bind. simpl.
    destruct (started (self s)); repeat split.
  - rewrite add_dispatcher_head_run. simpl.
    destruct (dispatchers (self s)); repeat split.
  - rewrite add_dispatcher_tail_run. simpl.
    destruct (dispatchers (self s)); repeat split.
  - destruct (delivery_leaves_messenger m s) as (-> & _).
    rewrite ms_deliver_dispatch_no_ready. repeat split.
  - destruct (ms_deliver_handle_connect_run con s) as (-> & _ & -> & _).
    rewrite ready_count_calls by reflexivity. repeat split.
  - destruct (ms_deliver_handle_reset_run con s) as (-> & _).
    rewrite ms_deliver_handle_reset_no_ready. repeat split.
  - destruct (ms_deliver_handle_remote_reset_run con s)
      as (-> & _ & -> & _).
    rewrite ready_count_calls by reflexivity. repeat split.
  - destruct (delivery_leaves_messenger 0%N s) as (_ & _ & _ & _ & -> & _).
    rewrite ms_deliver_get_authorizer_no_ready. repeat split.
  - destruct (ms_deliver_verify_authorizer_run
                con peer_type protocol authorizer authorizer_reply isvalid s)
      as [-> _].
    rewrite ms_deliver_verify_authorizer_no_ready. repeat split.
Qed.

(** A non-empty chain stays non-empty. *)
Lemma invoke_nonempty (c : method) s :
  empty (dispatchers (self s)) = false ->
  empty (dispatchers (self (final (invoke c s)))) = false.
Proof.
  destruct (invoke_chain c s) as [Hchain _]. cbv zeta in Hchain.
  rewrite Hchain.
  destruct c; simpl; destruct (dispatchers (self s)); simpl; auto.
Qed.

(** A call other than [ready()] itself fires [ready()] when it finds the
    chain empty and leaves it non-empty, and not otherwise. *)
Lemma invoke_ready (c : method) s :
  calls_ready c = false ->
  let before := empty (dispatchers (self s)) in
  let after := empty (dispatchers (self (final (invoke c s)))) in
  ready_count (trace (invoke c s))
  = (if before then if after then 0%nat else 1%nat else 0%nat).
Proof.
  intros Hc. destruct (invoke_chain c s) as [Hchain Hcount]. cbv zeta in *.
  rewrite Hchain, Hcount.
  destruct c; try discriminate Hc; simpl;
    destruct (dispatchers (self s)); simpl; auto.
Qed.

Lemma invoke_all_cons (c : method) (l : list method) s :
  (result (invoke c s) = Aborted /\
   final (invoke_all (c :: l) s) = final (invoke c s) /\
   trace (invoke_all (c :: l) s) = trace (invoke c s)) \/
  (final (invoke_all (c :: l) s) = final (invoke_all l (final (invoke c s)))
   /\
   trace (invoke_all (c :: l) s)
   = trace (invoke c s) ++ trace (invoke_all l (final (invoke c s)))).
Proof.
  simpl. unfold bind.
  destruct (result (invoke c s)); [right | left]; simpl; auto.
Qed.

Lemma invoke_all_nonempty (l : list method) s :
  empty (dispatchers (self s)) = false ->
  empty (dispatchers (self (final (invoke_all l s)))) = false.
Proof.
  revert s. induction l as [| c l IH]; intros s Hne; [exact Hne |].
  pose proof (invoke_nonempty c s Hne) as Hc.
  destruct (invoke_all_cons c l s) as [(_ & -> & _) | (-> & _)].
  - exact Hc.
  - apply IH, Hc.
Qed.

Lemma invoke_all_ready (l : list method) s :
  Forall (fun c => calls_ready c = false) l ->
  let before := empty (dispatchers (self s)) in
  let after := empty (dispatchers (self (final (invoke_all l s)))) in
  ready_count (trace (invoke_all l s))
  = (if before then if after then 0%nat else 1%nat else 0%nat).
Proof.
  intros Hall. revert s.
  induction Hall as [| c l Hc _ IH]; intros s; cbv zeta.
  - simpl. destruct (empty (dispatchers (self s))); auto.
  - pose proof (invoke_ready c s Hc) as Hcount. cbv zeta in Hcount.
    pose proof (invoke_nonempty c s) as Hmono.
    pose proof (invoke_all_nonempty l (final (invoke c s))) as Hmono'.
    destruct (invoke_all_cons c l s) as [(_ & -> & ->) | (-> & ->)].
    + exact Hcount.
    + specialize (IH (final (invoke c s))). cbv zeta in IH.
      rewrite ready_count_app, Hcount, IH.
      destruct (empty (dispatchers (self s)));
        destruct (empty (dispatchers (self (final (invoke c s)))));
        destruct (empty (dispatchers
                           (self (final (invoke_all l
                                           (final (invoke c s)))))));
        auto; try (specialize (Hmono eq_refl); discriminate);
        try (specialize (Hmono' eq_refl); discriminate).
Qed.

(** *** Across calls *)

(** X1.  The class itself fires [ready()] once and no more.  Take a newly
    constructed Messenger and any sequence of calls of the methods that
    have a body in the header ([lazy_send_message] apart, which is the
    transport's own [send_message]) in which nobody calls the public
    [ready()] directly: up to the end or to an abort, [ready()] has been
    fired once if the chain is non-empty at the end and not at all if it is
    empty.  A direct call of [ready()] fires it once more, whatever the
    chain. *)
Theorem ready_fired_once_over_any_calls
        (prio : Z) (cct_ : ptr) (w : entity_name_t) (w0 : World)
        (l : list method) :
  Forall (fun c => calls_ready c = false) l ->
  let r := invoke_all l (mk_sys (Messenger_new prio cct_ w) w0) in
  ready_count (trace r)
  = (if empty (dispatchers (self (final r))) then 0%nat else 1%nat) /\
  (ready_count (trace r) <= 1)%nat /\
  (forall s, ready_count (trace (invoke Do_ready s)) = 1%nat).
Proof.
  intros Hall r.
  pose proof (invoke_all_ready (mk_sys (Messenger_new prio cct_ w) w0) Hall)
    as H.
  cbv zeta in H. simpl in H. fold r in H. rewrite H.
  destruct (empty (dispatchers (self (final r)))); repeat split; auto.
Qed.

(** X2.  No sequence of calls takes a dispatcher out of the chain or
    reorders it: the chain at the end is the chain at the start with
    dispatchers added in front and behind.  Hence [is_ready()], once true,
    stays true. *)
Theorem chain_only_grows (l : list method) s :
  let r := invoke_all l s in
  (exists front back,
      dispatchers (self (final r)) = front ++ dispatchers (self s) ++ back) /\
  (if empty (dispatchers (self s)) then True
   else result (is_ready (final r)) = Returned true).
Proof.
  split.
  - revert s. induction l as [| c l IH]; intros s.
    + exists [], []. simpl. rewrite app_nil_r. reflexivity.
    + assert (Hc : exists front back,
                 dispatchers (self (final (invoke c s)))
                 = front ++ dispatchers (self s) ++ back).
      { destruct (invoke_chain c s) as [-> _].
        destruct c;
          try (exists [], []; simpl; rewrite app_nil_r; reflexivity).
        - exists [d], []. simpl. rewrite app_nil_r. reflexivity.
        - exists [], [d]. reflexivity. }
      destruct (invoke_all_cons c l s) as [(_ & -> & _) | (-> & _)];
        [exact Hc |].
      destruct Hc as (f1 & b1 & H1).
      destruct (IH (final (invoke c s))) as (f2 & b2 & H2).
      exists (f2 ++ f1), (b1 ++ b2). rewrite H2, H1.
      rewrite <- !app_assoc. reflexivity.
  - pose proof (invoke_all_nonempty l s) as Hmono.
    destruct (empty (dispatchers (self s))); [exact I |].
    unfold is_ready, bind. simpl. rewrite Hmono; reflexivity.
Qed.

Lemma invoke_self (c : method) s :
  self (final (invoke c s)) = member_step c (self s).
Proof.
  destruct c; unfold invoke, member_step;
    try rewrite (proj1 (discard_run _ s)); try reflexivity.
  - unfold set_default_send_priority, bind. simpl.
    destruct (started (self s)); reflexivity.
  - rewrite add_dispatcher_head_run. reflexivity.
  - rewrite add_dispatcher_tail_run. reflexivity.
  - apply (delivery_leaves_messenger m s).
  - apply (delivery_leaves_messenger con s).
  - apply (delivery_leaves_messenger con s).
  - apply (delivery_leaves_messenger con s).
  - apply (delivery_leaves_messenger 0%N s).
  - apply (delivery_leaves_messenger con s).
Qed.

(** *** Insertions *)

Lemma heads_tails_length (l : list insertion) :
  (List.length (heads l) + List.length (tails l))%nat = List.length l.
Proof.
  induction l as [| [d | d] l IH]; simpl; [reflexivity | |];
    rewrite <- IH; auto.
Qed.

Lemma insert_all_chain (l : list insertion) s :
  result (insert_all l s) = Returned tt /\
  dispatchers (self (final (insert_all l s)))
  = rev (heads l) ++ dispatchers (self s) ++ tails l.
Proof.
  revert s. induction l as [| i l IH]; intros s.
  - simpl. rewrite app_nil_r. split; reflexivity.
  - change (insert_all (i :: l)) with (insert i ;; insert_all l).
    destruct (insert_run i s) as (Hres & _ & _).
    rewrite (bind_returned _ _ s Hres).
    cbn [result final].
    destruct (IH (final (insert i s))) as [-> ->].
    split; [reflexivity |].
    destruct i as [d | d]; unfold insert.
    + rewrite add_dispatcher_head_run. simpl.
      rewrite <- !app_assoc. reflexivity.
    + rewrite add_dispatcher_tail_run. simpl.
      rewrite <- !app_assoc. reflexivity.
Qed.

(** X4.  A sequence of insertions, on whatever chain, leaves in front of
    it the dispatchers inserted at the head, the last inserted first, and
    behind it those inserted at the tail, the first inserted first.
    Nothing is dropped or merged (a dispatcher inserted twice is there
    twice), and the next broadcast calls that chain from front to back. *)
Theorem insertions_compose (l : list insertion) (con : ptr) s :
  let r := insert_all l s in
  let chain' := rev (heads l) ++ dispatchers (self s) ++ tails l in
  result r = Returned tt /\
  dispatchers (self (final r)) = chain' /\
  List.length (dispatchers (self (final r)))
  = (List.length (dispatchers (self s)) + List.length l)%nat /\
  invoked (trace (ms_deliver_handle_connect con (final r))) = chain'.
Proof.
  intros r chain'. destruct (insert_all_chain l s) as [Hres Hchain].
  fold r chain' in Hres, Hchain.
  split; [exact Hres |]. split; [exact Hchain |]. split.
  - rewrite Hchain. subst chain'.
    rewrite !length_app, length_rev, <- (heads_tails_length l). lia.
  - destruct (ms_deliver_handle_connect_run con (final r))
      as (_ & _ & _ & ->).
    exact Hchain.
Qed.

(** X5.  An insertion at the head and an insertion at the tail commute:
    in either order they give the same chain, the same world and the same
    trace, [ready()] being fired by whichever comes first if the chain was
    empty. *)
Theorem head_and_tail_insertions_commute (a b : ptr) s :
  (add_dispatcher_head a ;; add_dispatcher_tail b) s
  = (add_dispatcher_tail b ;; add_dispatcher_head a) s.
Proof.
  unfold bind.
  rewrite (add_dispatcher_head_run a s), (add_dispatcher_tail_run b s).
  cbn [result final trace].
  rewrite add_dispatcher_head_run, add_dispatcher_tail_run.
  cbn [result final trace self world dispatchers set_dispatchers].
  destruct (dispatchers (self s)); reflexivity.
Qed.

(** *** Lifecycle *)

Lemma lifecycle_all_run (l : list lifecycle_call) s :
  result (lifecycle_all l s) = Returned tt /\
  trace (lifecycle_all l s) = [] /\
  world (final (lifecycle_all l s)) = world s /\
  dispatchers (self (final (lifecycle_all l s))) = dispatchers (self s) /\
  _my_name (self (final (lifecycle_all l s))) = _my_name (self s) /\
  default_send_priority (self (final (lifecycle_all l s)))
  = default_send_priority (self s) /\
  cct (self (final (lifecycle_all l s))) = cct (self s) /\
  started (self (final (lifecycle_all l s)))
  = ends_started l (started (self s)).
Proof.
  revert s. induction l as [| c l IH]; intros s.
  - repeat split.
  - change (lifecycle_all (c :: l)) with (lifecycle c ;; lifecycle_all l).
    assert (Hc : result (lifecycle c s) = Returned 0%Z)
      by (destruct c; reflexivity).
    rewrite (bind_returned _ _ s Hc). cbn [result final trace].
    destruct (IH (final (lifecycle c s)))
      as (-> & -> & -> & -> & -> & -> & -> & ->).
    destruct c; repeat split.
Qed.

(** X6.  [start()] and [shutdown()] return 0, never abort, call nothing
    and touch nothing but [started]; after any sequence of them [started]
    tells whether the last one was [start()].  So
    [set_default_send_priority] aborts exactly when the last of them was
    [start()]: a [shutdown()] makes the setter usable again. *)
Theorem setter_follows_last_lifecycle_call
        (l : list lifecycle_call) (p : Z) s :
  let r := lifecycle_all l s in
  let b := ends_started l (started (self s)) in
  (result r = Returned tt /\ trace r = [] /\ world (final r) = world s) /\
  (dispatchers (self (final r)) = dispatchers (self s) /\
   _my_name (self (final r)) = _my_name (self s) /\
   default_send_priority (self (final r)) = default_send_priority (self s))
  /\
  started (self (final r)) = b /\
  result ((lifecycle_all l ;; set_default_send_priority p) s)
  = (if b then Aborted else Returned tt) /\
  (forall c s', result (lifecycle c s') = Returned 0%Z).
Proof.
  intros r b. subst r b.
  destruct (lifecycle_all_run l s)
    as (Hres & Htr & Hw & Hd & Hn & Hp & _ & Hs).
  repeat split; try assumption.
  - rewrite (bind_returned _ _ s Hres). cbn [result].
    unfold set_default_send_priority, bind. simpl. rewrite Hs.
    destruct (ends_started l (started (self s))); reflexivity.
  - intros [|] s'; reflexivity.
Qed.

(** *** The name *)

Lemma invoke_all_name (l : list method) s :
  Forall (fun c => renames c = false) l ->
  _my_name (self (final (invoke_all l s))) = _my_name (self s).
Proof.
  intros Hall. revert s.
  induction Hall as [| c l Hc _ IH]; intros s; [reflexivity |].
  assert (Hname : _my_name (self (final (invoke c s))) = _my_name (self s)).
  { rewrite invoke_self. destruct c; try reflexivity.
    - discriminate Hc.
    - simpl. destruct (started (self s)); reflexivity. }
  destruct (invoke_all_cons c l s) as [(_ & -> & _) | (-> & _)].
  - exact Hname.
  - rewrite IH. exact Hname.
Qed.

(** X7.  A name given with [set_myname], in whatever state of the
    lifecycle, stays: through any later calls other than [set_myname],
    deliveries, insertions, [start()] and [shutdown()] among them, and
    through an abort, [get_myname] returns it and [get_myinst] returns it
    with the address the transport gives at that time. *)
Theorem name_persists (m : entity_name_t) (l : list method) s :
  Forall (fun c => renames c = false) l ->
  let r := (set_myname m ;; invoke_all l) s in
  result (get_myname (final r)) = Returned m /\
  result (get_myinst (final r))
  = Returned (mk_inst m (get_myaddr_impl (world (final r)))).
Proof.
  intros Hall r.
  assert (Hname : _my_name (self (final r)) = m).
  { subst r.
    rewrite (bind_returned (set_myname m) _ s (a := tt)) by reflexivity.
    cbn [final]. rewrite (invoke_all_name _ Hall). reflexivity. }
  split.
  - change (Returned (_my_name (self (final r))) = Returned m).
    rewrite Hname. reflexivity.
  - change (Returned (mk_inst (_my_name (self (final r)))
                              (get_myaddr_impl (world (final r))))
            = Returned (mk_inst m (get_myaddr_impl (world (final r))))).
    rewrite Hname. reflexivity.
Qed.

(** *** The world after a delivery *)

Ltac claim_loop_world ps s callback :=
  revert s; induction ps as [| p ps IH]; intros s; [reflexivity |];
  simpl; unfold bind, call; simpl;
  let c := eval cbv beta in (callback p (world s)) in
  destruct c as [[|] w']; simpl;
  [ reflexivity | rewrite (IH (mk_sys (self s) w')); reflexivity ].

Lemma dispatch_loop_world m ps s :
  world (final (dispatch_loop m ps s))
  = world_after (fun d => ms_dispatch d m)
                (invoked (trace (dispatch_loop m ps s))) (world s).
Proof. claim_loop_world ps s (fun p => ms_dispatch p m). Qed.

Lemma reset_loop_world con ps s :
  world (final (reset_loop con ps s))
  = world_after (fun d => ms_handle_reset d con)
                (invoked (trace (reset_loop con ps s))) (world s).
Proof. claim_loop_world ps s (fun p => ms_handle_reset p con). Qed.

Lemma verify_loop_world con (peer_type protocol : Z)
      (authorizer authorizer_reply isvalid : ptr) ps s :
  let l := verify_loop con peer_type protocol authorizer authorizer_reply
                       isvalid ps s in
  world (final l)
  = world_after (fun d => ms_verify_authorizer d con peer_type protocol
                            authorizer authorizer_reply isvalid)
                (invoked (trace l)) (world s).
Proof.
  cbv zeta.
  claim_loop_world ps s
    (fun p => ms_verify_authorizer p con peer_type protocol authorizer
                                   authorizer_reply isvalid).
Qed.

Lemma connect_loop_world con ps s :
  world (final (connect_loop con ps s))
  = world_after (fun d => ms_handle_connect d con) ps (world s).
Proof.
  revert s. induction ps as [| p ps IH]; intros s; [reflexivity |].
  simpl. unfold bind, call. simpl. rewrite IH. reflexivity.
Qed.

Lemma remote_reset_loop_world con ps s :
  world (final (remote_reset_loop con ps s))
  = world_after (fun d => ms_handle_remote_reset d con) ps (world s).
Proof.
  revert s. induction ps as [| p ps IH]; intros s; [reflexivity |].
  simpl. unfold bind, call. simpl. rewrite IH. reflexivity.
Qed.

(** X8.  [ms_deliver_verify_authorizer] never aborts.  It calls the
    dispatchers in chain order and stops at the first whose
    [ms_verify_authorizer] answers [true], returning [true]; if none does,
    it has called the whole chain and returns [false].  So it returns
    [true] exactly when some dispatcher of the chain, asked in its turn,
    verifies, and [false] exactly when every one of them declines.  The
    world it leaves is the one the dispatchers called made, one after the
    other: those behind the first [true] have had no effect. *)
Theorem ms_deliver_verify_authorizer_stops_at_first_true
        con (peer_type protocol : Z)
        (authorizer authorizer_reply isvalid : ptr) s :
  let r := ms_deliver_verify_authorizer con peer_type protocol authorizer
                                        authorizer_reply isvalid s in
  let ev d := Ev_ms_verify_authorizer d con peer_type protocol in
  let ask d := ms_verify_authorizer d con peer_type protocol authorizer
                                    authorizer_reply isvalid in
  (exists pre rest, dispatchers (self s) = pre ++ rest /\
     invoked (trace r) = pre ++ firstn 1 rest /\
     declines ask pre (world s) = true /\
     match rest with
     | [] =>
         result r = Returned false /\
         trace r = map (fun d => ev d false) pre /\
         world (final r) = world_after ask pre (world s)
     | claimer :: _ =>
         fst (ask claimer (world_after ask pre (world s))) = true /\
         result r = Returned true /\
         trace r = map (fun d => ev d false) pre ++ [ev claimer true] /\
         world (final r) = snd (ask claimer (world_after ask pre (world s)))
     end) /\
  (result r = Returned true
   <-> declines ask (dispatchers (self s)) (world s) = false) /\
  (result r = Returned false
   <-> declines ask (dispatchers (self s)) (world s) = true) /\
  world (final r) = world_after ask (invoked (trace r)) (world s).
Proof.
  intros r ev ask.
  destruct (first_claim_split ask (dispatchers (self s)) (world s))
    as (pre & rest & Hps & Hd & Hc).
  assert (Hw : world (final r) = world_after ask (invoked (trace r)) (world s)).
  { subst r. unfold ms_deliver_verify_authorizer, bind. simpl.
    apply verify_loop_world. }
  destruct rest as [| c rest'].
  - rewrite app_nil_r in Hps. subst pre.
    pose proof (ms_deliver_verify_authorizer_declined
                  con peer_type protocol authorizer authorizer_reply
                  isvalid s Hd) as E.
    cbv zeta in E. fold r ask in E.
    split; [| split; [| split; [| exact Hw]]].
    + exists (dispatchers (self s)), []. rewrite E.
      cbn [result trace final world].
      rewrite invoked_calls, !app_nil_r by reflexivity. repeat split.
      exact Hd.
    + rewrite E, Hd. cbn [result]. split; discriminate.
    + rewrite E, Hd. cbn [result]. split; reflexivity.
  - pose proof (ms_deliver_verify_authorizer_claimed
                  con peer_type protocol authorizer authorizer_reply
                  isvalid pre c rest' s Hps Hd Hc) as E.
    cbv zeta in E. fold r ask in E.
    split; [| split; [| split; [| exact Hw]]].
    + exists pre, (c :: rest'). rewrite E. cbn [result trace final world].
      rewrite invoked_app, invoked_calls by reflexivity. repeat split;
        assumption.
    + rewrite E, Hps, (declines_claimed ask pre c rest' (world s) Hc).
      cbn [result]. split; reflexivity.
    + rewrite E, Hps, (declines_claimed ask pre c rest' (world s) Hc).
      cbn [result]. split; discriminate.
Qed.

(** X9.  [ms_deliver_handle_reset] returns normally in every case.  It
    calls the dispatchers in chain order and stops at the first whose
    [ms_handle_reset] answers [true] when its turn comes; the dispatchers
    behind that one are not called and have no effect on the world. *)
Theorem ms_deliver_handle_reset_stops_at_first_claim con s :
  let r := ms_deliver_handle_reset con s in
  let ask d := ms_handle_reset d con in
  result r = Returned tt /\
  (exists pre rest, dispatchers (self s) = pre ++ rest /\
     invoked (trace r) = pre ++ firstn 1 rest /\
     declines ask pre (world s) = true /\
     trace r = map (fun d => Ev_ms_handle_reset d con false) pre
                 ++ match rest with
                    | claimer :: _ => [Ev_ms_handle_reset claimer con true]
                    | [] => []
                    end /\
     match rest with
     | [] => world (final r) = world_after ask pre (world s)
     | claimer :: _ =>
         fst (ask claimer (world_after ask pre (world s))) = true /\
         world (final r) = snd (ask claimer (world_after ask pre (world s)))
     end) /\
  world (final r) = world_after ask (invoked (trace r)) (world s).
Proof.
  intros r ask.
  destruct (first_claim_split ask (dispatchers (self s)) (world s))
    as (pre & rest & Hps & Hd & Hc).
  assert (Hw : world (final r) = world_after ask (invoked (trace r)) (world s)).
  { subst r. unfold ms_deliver_handle_reset, bind. simpl.
    pose proof (reset_loop_world con (dispatchers (self s)) s) as Hw.
    destruct (result (reset_loop con (dispatchers (self s)) s));
      simpl; rewrite ?app_nil_r; exact Hw. }
  destruct rest as [| c rest'].
  - rewrite app_nil_r in Hps. subst pre.
    pose proof (ms_deliver_handle_reset_declined con s Hd) as E.
    cbv zeta in E. fold r ask in E.
    split; [rewrite E; reflexivity |]. split; [| exact Hw].
    exists (dispatchers (self s)), []. rewrite E.
    cbn [result trace final world].
    rewrite invoked_calls, !app_nil_r by reflexivity. repeat split.
    exact Hd.
  - pose proof (ms_deliver_handle_reset_claimed con pre c rest' s Hps Hd Hc)
      as E.
    cbv zeta in E. fold r ask in E.
    split; [rewrite E; reflexivity |]. split; [| exact Hw].
    exists pre, (c :: rest'). rewrite E. cbn [result trace final world].
    rewrite invoked_app, invoked_calls by reflexivity. repeat split;
      assumption.
Qed.

(** X10.  [ms_deliver_dispatch] returns exactly when some dispatcher of
    the chain, asked in its turn about the stamped message, claims it, and
    aborts, having emitted the diagnostic, exactly when every dispatcher of
    the chain declines: there is no diagnostic for a claimed message and no
    silent drop of an unclaimed one.  The world it leaves, the one the
    diagnostic is printed from, is the stamped world after the dispatchers
    called, one after the other. *)
Theorem ms_deliver_dispatch_outcome m s :
  let now := ceph_clock_now (cct (self s)) (world s) in
  let stamped := set_dispatch_stamp m now (world s) in
  let ask d := ms_dispatch d m in
  let r := ms_deliver_dispatch m s in
  let diagnosed := exists text, In (Ev_dout_emergency text) (trace r) in
  (result r = Returned tt
   <-> exists pre claimer post,
         dispatchers (self s) = pre ++ claimer :: post /\
         declines ask pre stamped = true /\
         fst (ask claimer (world_after ask pre stamped)) = true) /\
  (result r = Returned tt
   <-> declines ask (dispatchers (self s)) stamped = false) /\
  (result r = Aborted
   <-> declines ask (dispatchers (self s)) stamped = true) /\
  (diagnosed <-> declines ask (dispatchers (self s)) stamped = true) /\
  (result r = Returned tt <-> exists d, In (Ev_ms_dispatch d m true) (trace r))
  /\
  (result r = Aborted <-> diagnosed) /\
  world (final r) = world_after ask (invoked (trace r)) stamped.
Proof.
  intros now stamped ask r diagnosed.
  assert (Hmap : forall pre (e : event),
             In e (map (fun d => Ev_ms_dispatch d m false) pre) ->
             exists d, e = Ev_ms_dispatch d m false).
  { intros pre e Hin. apply in_map_iff in Hin.
    destruct Hin as (d & <- & _). exists d. reflexivity. }
  assert (Hw : world (final r) = world_after ask (invoked (trace r)) stamped).
  { subst r. unfold ms_deliver_dispatch, bind. simpl. fold now.
    set (s1 := mk_sys (self s) (set_dispatch_stamp m now (world s))).
    pose proof (dispatch_loop_world m (dispatchers (self s)) s1) as Hw.
    destruct (result (dispatch_loop m (dispatchers (self s)) s1))
      as [[|] |]; simpl; rewrite ?invoked_app; simpl;
      rewrite ?app_nil_r; exact Hw. }
  destruct (first_claim_split ask (dispatchers (self s)) stamped)
    as (pre & rest & Hps & Hd & Hc).
  destruct rest as [| c rest'].
  - rewrite app_nil_r in Hps. subst pre.
    pose proof (ms_deliver_dispatch_declined m s Hd) as E.
    cbv zeta in E. fold now stamped ask r in E.
    assert (Hdiag : diagnosed).
    { subst diagnosed. rewrite E. eexists. cbn [trace]. right.
      apply in_or_app. right. left. reflexivity. }
    assert (Hnoclaim : ~ exists d, In (Ev_ms_dispatch d m true) (trace r)).
    { rewrite E. cbn [trace]. intros (d & [Hin | Hin]); [discriminate Hin |].
      apply in_app_or in Hin. destruct Hin as [Hin | [Hin | []]].
      - destruct (Hmap _ _ Hin) as (d' & Hd'). discriminate Hd'.
      - discriminate Hin. }
    assert (Hres : result r = Aborted) by (rewrite E; reflexivity).
    rewrite Hres, Hd.
    repeat split; try discriminate; try reflexivity; try (intros; assumption).
    + intros (pre & claimer & post & Hps & _ & Hcl).
      pose proof (declines_claimed ask pre claimer post stamped Hcl) as Hf.
      rewrite <- Hps, Hd in Hf. discriminate Hf.
    + intros H. exfalso. exact (Hnoclaim H).
  - pose proof (ms_deliver_dispatch_claimed m pre c rest' s Hps Hd Hc) as E.
    cbv zeta in E. fold now stamped ask r in E.
    assert (Hnodiag : ~ diagnosed).
    { subst diagnosed. rewrite E. cbn [trace].
      intros (text & [Hin | Hin]); [discriminate Hin |].
      apply in_app_or in Hin. destruct Hin as [Hin | [Hin | []]].
      - destruct (Hmap _ _ Hin) as (d' & Hd'). discriminate Hd'.
      - discriminate Hin. }
    assert (Hclaim : exists d, In (Ev_ms_dispatch d m true) (trace r)).
    { exists c. rewrite E. cbn [trace]. right. apply in_or_app. right. left.
      reflexivity. }
    assert (Hres : result r = Returned tt) by (rewrite E; reflexivity).
    rewrite Hres, Hps, (declines_claimed ask pre c rest' stamped Hc).
    repeat split; try discriminate; try reflexivity; try (intros; assumption).
    + intros _. exists pre, c, rest'. repeat split; assumption.
    + intros H. exfalso. exact (Hnodiag H).
    + intros H. exfalso. exact (Hnodiag H).
Qed.

(** X11.  A broadcast hands the world from each dispatcher of the chain
    to the next, in chain order: the world after
    [ms_deliver_handle_connect] or [ms_deliver_handle_remote_reset] is the
    one all the dispatchers of the chain have worked on in turn, whatever
    each returned. *)
Theorem broadcast_threads_the_world con s :
  world (final (ms_deliver_handle_connect con s))
  = world_after (fun d => ms_handle_connect d con) (dispatchers (self s))
                (world s) /\
  world (final (ms_deliver_handle_remote_reset con s))
  = world_after (fun d => ms_handle_remote_reset d con)
                (dispatchers (self s)) (world s).
Proof.
  unfold ms_deliver_handle_connect, ms_deliver_handle_remote_reset, bind.
  simpl. split.
  - apply connect_loop_world.
  - apply remote_reset_loop_world.
Qed.

(** *** The authorizer handed from call to call *)

Lemma authorizer_loop_hands_on peer_type force_new (a : ptr) ps s :
  hands_on a (trace (authorizer_loop peer_type force_new a ps s)).
Proof.
  revert a s. induction ps as [| p ps IH]; intros a s; [exact I |].
  simpl. unfold bind, call. simpl.
  destruct (ms_get_authorizer p peer_type a force_new (world s))
    as [[[|] a'] w']; simpl.
  - split; [reflexivity | exact I].
  - split; [reflexivity | apply IH].
Qed.

Lemma authorizer_loop_unchanged peer_type force_new (a : ptr) ps s :
  Forall leaves_authorizer
         (trace (authorizer_loop peer_type force_new a ps s)) ->
  result (authorizer_loop peer_type force_new a ps s) = Returned None \/
  result (authorizer_loop peer_type force_new a ps s) = Returned (Some a).
Proof.
  revert a s. induction ps as [| p ps IH]; intros a s; [left; reflexivity |].
  simpl. unfold bind, call. simpl.
  destruct (ms_get_authorizer p peer_type a force_new (world s))
    as [[[|] a'] w']; simpl; intros Hall; inversion Hall as [| e t He Ht];
    subst; simpl in He; subst a'.
  - right. reflexivity.
  - destruct (IH a (mk_sys (self s) w') Ht) as [-> | ->]; auto.
Qed.

(** X12.  The calls [ms_deliver_get_authorizer] makes share one
    authorizer variable: the first dispatcher is handed null, and each
    later one is handed what the dispatcher before it left there.  So what
    is returned when a dispatcher answers [true] may have been written by
    an earlier dispatcher that answered [false]: if the chain is
    [pre ++ d :: _], the dispatchers of [pre] all decline and [d] answers
    [true] leaving the variable as it was handed to it, the result is what
    the dispatchers of [pre] left in the variable. *)
Theorem ms_deliver_get_authorizer_hands_on
        (peer_type : Z) (force_new : bool) pre d post s :
  let r := ms_deliver_get_authorizer peer_type force_new s in
  let st := authorizer_after peer_type force_new pre NULL (world s) in
  let r1 := ms_get_authorizer d peer_type (fst st) force_new (snd st) in
  dispatchers (self s) = pre ++ d :: post ->
  authorizer_declines peer_type force_new pre NULL (world s) = true ->
  fst (fst r1) = true ->
  snd (fst r1) = fst st ->
  result r = Returned (fst st) /\
  trace r = authorizer_calls peer_type force_new pre NULL (world s)
              ++ [Ev_ms_get_authorizer d peer_type force_new (fst st) true
                                       (fst st)] /\
  hands_on NULL (trace r).
Proof.
  intros r st r1 Hps Hd Hc Hleft.
  pose proof (ms_deliver_get_authorizer_claimed peer_type force_new pre d
                post s Hps Hd Hc) as E.
  cbv zeta in E. fold r st r1 in E. rewrite Hleft in E.
  split; [rewrite E; reflexivity |]. split; [rewrite E; reflexivity |].
  subst r.
  destruct (ms_deliver_get_authorizer_run peer_type force_new s)
    as (-> & _ & _).
  apply authorizer_loop_hands_on.
Qed.

(** X13.  [ms_deliver_get_authorizer] makes up no authorizer: if every
    dispatcher called left the authorizer variable as it found it, the
    result is null, even when a dispatcher answered [true]. *)
Theorem ms_deliver_get_authorizer_null_unless_written
        (peer_type : Z) (force_new : bool) s :
  Forall leaves_authorizer
         (trace (ms_deliver_get_authorizer peer_type force_new s)) ->
  result (ms_deliver_get_authorizer peer_type force_new s) = Returned NULL.
Proof.
  destruct (ms_deliver_get_authorizer_run peer_type force_new s)
    as (-> & _ & ->).
  intros Hall.
  destruct (authorizer_loop_unchanged _ _ _ _ _ Hall) as [-> | ->];
    reflexivity.
Qed.

(** *** The empty chain *)

(** X14.  On a Messenger without a dispatcher the broadcasts and the
    local reset return having done nothing, authorizer issuance returns
    null and authorizer verification returns [false] without a call or a
    change, [is_ready()] is false, and only message dispatch is fatal: it
    aborts having called no dispatcher. *)
Theorem deliveries_on_empty_chain (x : ptr) s :
  dispatchers (self s) = [] ->
  ms_deliver_handle_connect x s = Run (Returned tt) s [] /\
  ms_deliver_handle_reset x s = Run (Returned tt) s [] /\
  ms_deliver_handle_remote_reset x s = Run (Returned tt) s [] /\
  (forall peer_type force_new,
      ms_deliver_get_authorizer peer_type force_new s
      = Run (Returned NULL) s []) /\
  (forall peer_type protocol authorizer authorizer_reply isvalid,
      ms_deliver_verify_authorizer x peer_type protocol authorizer
                                   authorizer_reply isvalid s
      = Run (Returned false) s []) /\
  result (is_ready s) = Returned false /\
  result (ms_deliver_dispatch x s) = Aborted /\
  invoked (trace (ms_deliver_dispatch x s)) = [].
Proof.
  intros Hempty.
  unfold ms_deliver_handle_connect, ms_deliver_handle_reset,
    ms_deliver_handle_remote_reset, ms_deliver_get_authorizer,
    ms_deliver_verify_authorizer, ms_deliver_dispatch, is_ready, bind.
  simpl. rewrite Hempty. simpl. repeat split.
Qed.

End MessengerRestFacts.

(** ** More of Policy *)

Module PolicyRestFacts.
Import Policy.

Section WithDefaultFeatures.

(** [DEF] is [CEPH_FEATURES_SUPPORTED_DEFAULT]. *)
Variable DEF : Z.

(** X15.  [Policy()] is the policy of [Policy::client(0, 0)] and of
    [Policy::lossless_peer(0, 0)], and [lossless_peer] and [client] give
    the same policy for all masks; the four named constructors give three
    different policies. *)
Theorem default_policy_is_client (sup req : Z) :
  default DEF = client DEF 0 0 /\
  default DEF = lossless_peer DEF 0 0 /\
  lossless_peer DEF sup req = client DEF sup req /\
  stateful_server DEF sup req <> stateless_server DEF sup req /\
  stateful_server DEF sup req <> client DEF sup req /\
  stateless_server DEF sup req <> client DEF sup req.
Proof.
  unfold default, client, lossless_peer, stateful_server, stateless_server,
    make.
  rewrite Z.lor_0_l. repeat split; discriminate.
Qed.

(** X16.  The supported mask of a policy has exactly the bits of the
    caller's mask and of the baseline, and building a policy from the
    supported mask of another adds nothing: or-ing the baseline in is
    idempotent. *)
Theorem features_supported_idempotent (l s l' s' : bool) (sup req req' : Z) :
  let p := make DEF l s sup req in
  (forall i, Z.testbit (features_supported p) i
             = Z.testbit sup i || Z.testbit DEF i) /\
  features_supported (make DEF l' s' (features_supported p) req')
  = features_supported p.
Proof.
  simpl. split.
  - intros i. apply Z.lor_spec.
  - rewrite <- Z.lor_assoc, Z.lor_diag. reflexivity.
Qed.

(** X17.  With a caller's mask and a baseline that fit [uint64_t], the
    supported mask of each of the four constructors fits [uint64_t]: the
    bitwise or never leaves the range, so nothing is lost when it is stored
    in the 64-bit member. *)
Theorem features_supported_fits_uint64 (sup req : Z) :
  is_uint64 sup -> is_uint64 DEF ->
  is_uint64 (features_supported (stateful_server DEF sup req)) /\
  is_uint64 (features_supported (stateless_server DEF sup req)) /\
  is_uint64 (features_supported (lossless_peer DEF sup req)) /\
  is_uint64 (features_supported (client DEF sup req)).
Proof.
  intros Hs Hd. repeat split; apply PolicyFacts.make_uint64; assumption.
Qed.

End WithDefaultFeatures.

End PolicyRestFacts.

(** ** The concrete system at work *)

Module SampleRuns.
Import Sample.

(** Chain [1; 2; 3], where 1 claims nothing and 2 and 3 claim: the message
    is stamped, 1 and 2 are called, 3 is not. *)
Example dispatch_A_B_C :
  let r := ms_deliver_dispatch (DI := DI) (MI := MI) 9%N
                               (with_chain [1; 2; 3]%N) in
  result r = Returned tt /\
  trace r = [@Ev_set_dispatch_stamp T 9%N 0%nat;
             Ev_ms_dispatch 1%N 9%N false;
             Ev_ms_dispatch 2%N 9%N true] /\
  invoked (trace r) = [1; 2]%N.
Proof. repeat split. Qed.

(** The empty chain: stamp, diagnostic, abort. *)
Example dispatch_empty_chain :
  let r := ms_deliver_dispatch (DI := DI) (MI := MI) 9%N fresh in
  result r = Aborted /\
  trace r =
    [@Ev_set_dispatch_stamp T 9%N 0%nat;
     Ev_dout_emergency
       ("ms_deliver_dispatch: fatal error: unhandled message "
          ++ "0x7f00 osd_ping from osd.0 0.0.0.0:0/0")%string].
Proof. repeat split. Qed.

(** Chain [2; 1], where 2 claims the local reset: 1 is not called. *)
Example reset_A_B :
  let r := ms_deliver_handle_reset (DI := DI) 8%N (with_chain [2; 1]%N) in
  result r = Returned tt /\
  trace r = [Ev_ms_handle_reset 2%N 8%N true].
Proof. repeat split. Qed.

(** Broadcasts go to claimers and non-claimers alike. *)
Example connect_A_B_C :
  trace (ms_deliver_handle_connect (DI := DI) 8%N (with_chain [1; 2; 3]%N))
  = [Ev_ms_handle_connect 1%N 8%N; Ev_ms_handle_connect 2%N 8%N;
     Ev_ms_handle_connect 3%N 8%N].
Proof. reflexivity. Qed.

(** Head, tail, head: [ready()] once, by the first call. *)
Example three_insertions :
  let r := insert_all (TI := TI) [At_head 1%N; At_tail 2%N; At_head 3%N]
                      fresh in
  trace r = [Ev_ready] /\
  dispatchers (self (final r)) = [3; 1; 2]%N.
Proof. repeat split. Qed.

(** Authorizer issuance on [1; 2; 3]: 1 declines, 2 issues 7, 3 is not
    asked.  On [1] alone the result is null. *)
Example get_authorizer_A_B_C :
  let r := ms_deliver_get_authorizer (DI := DI) 4 false
                                     (with_chain [1; 2; 3]%N) in
  result r = Returned 7%N /\
  invoked (trace r) = [1; 2]%N /\
  result (ms_deliver_get_authorizer (DI := DI) 4 false (with_chain [1%N]))
    = Returned NULL.
Proof. repeat split. Qed.

(** Authorizer verification on [1; 3; 2] stops at 3. *)
Example verify_authorizer_A_C_B :
  let r := ms_deliver_verify_authorizer (DI := DI) 8%N 4 1 20%N 21%N 22%N
                                        (with_chain [1; 3; 2]%N) in
  result r = Returned true /\
  invoked (trace r) = [1; 3]%N.
Proof. repeat split. Qed.

(** [set_default_send_priority] around [start()] and [shutdown()]. *)
Example priority_lifecycle :
  result (set_default_send_priority 63 fresh) = Returned tt /\
  result ((start ;; set_default_send_priority 63) fresh) = Aborted /\
  result ((start ;; shutdown ;; set_default_send_priority 63) fresh)
    = Returned tt.
Proof. repeat split. Qed.

End SampleRuns.

(** Witness of C1: chain [1; 5], neither of which claims. *)
Lemma ms_deliver_dispatch_unclaimed_aborts_witness :
  let r := ms_deliver_dispatch (DI := Sample.DI) (MI := Sample.MI) 9%N
                               (Sample.with_chain [1; 5]%N) in
  no_dispatch_claim 9%N (trace r) /\ result r = Aborted.
Proof.
  intros r.
  assert (H : no_dispatch_claim 9%N (trace r)).
  { intros d b Hin. vm_compute in Hin.
    destruct Hin as [E | [E | [E | [E | []]]]];
      try discriminate E; injection E; intros; subst; reflexivity. }
  split; [exact H |].
  exact (proj1 (@ms_deliver_dispatch_unclaimed_aborts
                  Sample.T Sample.DI Sample.MI 9%N
                  (Sample.with_chain [1; 5]%N) H)).
Defined.

(** Witness of C9: chain [1; 5], neither of which claims. *)
Lemma ms_deliver_handle_reset_unclaimed_returns_witness :
  let r := ms_deliver_handle_reset (DI := Sample.DI) 8%N
                                   (Sample.with_chain [1; 5]%N) in
  no_reset_claim 8%N (trace r) /\
  result r = Returned tt /\
  invoked (trace r) = [1; 5]%N.
Proof.
  intros r.
  assert (H : no_reset_claim 8%N (trace r)).
  { intros d b Hin. vm_compute in Hin.
    destruct Hin as [E | [E | []]];
      try discriminate E; injection E; intros; subst; reflexivity. }
  split; [exact H |].
  destruct (@ms_deliver_handle_reset_unclaimed_returns
              Sample.T Sample.DI 8%N (Sample.with_chain [1; 5]%N) H)
    as (Hres & _ & Hinv & _).
  split; [exact Hres | exact Hinv].
Defined.

(** Witness of C5: dispatchers 1, 2, 3 added at the head of the empty chain
    of a fresh Messenger. *)
Lemma add_dispatcher_head_order_witness :
  dispatchers (self Sample.fresh) = [] /\
  dispatchers
    (self (final ((add_dispatcher_head (TI := Sample.TI) 1%N ;;
                   add_dispatcher_head (TI := Sample.TI) 2%N ;;
                   add_dispatcher_head (TI := Sample.TI) 3%N)
                    Sample.fresh)))
  = [3; 2; 1]%N.
Proof.
  split; [reflexivity |].
  exact (proj1 (proj2 (@add_dispatcher_head_order
                         Sample.T Sample.DI Sample.MI Sample.TI
                         1%N 2%N 3%N Sample.fresh eq_refl))).
Defined.

(** C8 as the specification words it fails on the chain [4; 2].  Dispatcher
    4 answers [true] and produces no authorizer; dispatcher 2 behind it
    would produce authorizer 7.  The code stops at 4 and returns null; the
    walk of the specification goes on to 2, the first dispatcher producing a
    non-null authorizer, and returns 7. *)
Lemma ms_deliver_get_authorizer_not_first_nonnull :
  let s := Sample.with_chain [4; 2]%N in
  let code := ms_deliver_get_authorizer (DI := Sample.DI) 0 false s in
  let spec := spec_get_authorizer (DI := Sample.DI) 0 false s in
  result code = Returned NULL /\
  trace code = [Ev_ms_get_authorizer 4%N 0 false NULL true NULL] /\
  result spec = Returned 7%N /\
  invoked (trace spec) = [4; 2]%N /\
  result code <> result spec.
Proof.
  repeat split. discriminate.
Qed.

(** ** The rest of the class at work *)

Module SampleRestRuns.
Import Sample SampleRest.

(** A life of the Messenger: rename, two insertions, a broadcast, a
    claimed message, [start()], then the setter, which aborts; the local
    reset behind it is not run. *)
Example a_life :
  let r := invoke_all (DI := DI) (MI := MI) (TI := TI) (AI := AI) (EN := EN)
             [@Do_set_myname T 5%Z;
              Do_add_dispatcher_tail 2%N;
              Do_add_dispatcher_head 1%N;
              Do_ms_deliver_handle_connect 8%N;
              Do_rebind 6800;
              Do_ms_deliver_dispatch 9%N;
              Do_start;
              Do_set_default_send_priority 63;
              Do_ms_deliver_handle_reset 8%N]
             fresh in
  result r = Aborted /\
  trace r = [Ev_ready;
             Ev_ms_handle_connect 1%N 8%N; Ev_ms_handle_connect 2%N 8%N;
             @Ev_set_dispatch_stamp T 9%N 2%nat;
             Ev_ms_dispatch 1%N 9%N false; Ev_ms_dispatch 2%N 9%N true] /\
  dispatchers (self (final r)) = [1; 2]%N /\
  default_send_priority (self (final r)) = 127%Z /\
  world (final r) = 4%nat.
Proof. repeat split. Qed.

(** [ready()] is public: called twice by hand on an empty chain, it is
    fired twice. *)
Example direct_ready_calls :
  let r := invoke_all (DI := DI) (MI := MI) (TI := TI) (AI := AI) (EN := EN)
                      [@Do_ready T; Do_ready] fresh in
  ready_count (trace r) = 2%nat /\
  dispatchers (self (final r)) = [].
Proof. repeat split. Qed.

(** Issuance on [6; 4] with dispatcher 6 in the system: 6 writes 9 and
    declines, 4 answers [true] and writes nothing, and 9 is returned. *)
Example get_authorizer_written_earlier :
  let r := ms_deliver_get_authorizer (DI := DI_6) 4 false
                                     (with_chain [6; 4]%N) in
  result r = Returned 9%N /\
  trace r = [Ev_ms_get_authorizer 6%N 4 false NULL false 9%N;
             Ev_ms_get_authorizer 4%N 4 false 9%N true 9%N].
Proof. repeat split. Qed.

Example my_instance :
  result (get_myinst (AI := AI) fresh) = Returned (@mk_inst T 0%Z 42%Z) /\
  result (rebind (T := T) (EN := EN) 6800 fresh) = Returned (-95)%Z /\
  result (get_dispatch_queue_len (T := T) fresh) = Returned 0%Z.
Proof. repeat split. Qed.

End SampleRestRuns.

(** Witness of X13: on the chain [1; 4] dispatcher 1 declines and
    dispatcher 4 answers [true], neither writing an authorizer. *)
Lemma ms_deliver_get_authorizer_null_unless_written_witness :
  let r := ms_deliver_get_authorizer (DI := Sample.DI) 4 false
                                     (Sample.with_chain [1; 4]%N) in
  Forall leaves_authorizer (trace r) /\
  answer (last (trace r) Ev_ready) = Some true /\
  result r = Returned NULL.
Proof.
  intros r.
  assert (H : Forall leaves_authorizer (trace r))
    by (repeat constructor).
  split; [exact H |]. split; [reflexivity |].
  exact (@ms_deliver_get_authorizer_null_unless_written
           Sample.T Sample.DI 4%Z false (Sample.with_chain [1; 4]%N) H).
Defined.

(** Witness of X14: a freshly constructed Messenger. *)
Lemma deliveries_on_empty_chain_witness :
  dispatchers (self Sample.fresh) = [] /\
  ms_deliver_handle_connect (DI := Sample.DI) 8%N Sample.fresh
  = Run (Returned tt) Sample.fresh [] /\
  result (ms_deliver_dispatch (DI := Sample.DI) (MI := Sample.MI) 8%N
                              Sample.fresh) = Aborted.
Proof.
  split; [reflexivity |].
  destruct (@deliveries_on_empty_chain Sample.T Sample.DI Sample.MI
              8%N Sample.fresh eq_refl)
    as (Hc & _ & _ & _ & _ & _ & Hd & _).
  split; [exact Hc | exact Hd].
Defined.

(** Witness of X17: no caller's mask over a baseline of eight bits. *)
Lemma features_supported_fits_uint64_witness :
  Policy.is_uint64 0 /\
  Policy.is_uint64 255 /\
  Policy.is_uint64 (Policy.features_supported (Policy.client 255 0 0)).
Proof.
  assert (H0 : Policy.is_uint64 0) by (unfold Policy.is_uint64; lia).
  assert (H1 : Policy.is_uint64 255) by (unfold Policy.is_uint64; lia).
  split; [exact H0 |]. split; [exact H1 |].
  exact (proj2 (proj2 (proj2
           (@PolicyRestFacts.features_supported_fits_uint64
              255 0 0 H0 H1)))).
Defined.

(** Witness of X7: renamed to 5, the Messenger is started, given
    dispatcher 1 and handed a message that 1 does not claim; the name
    outlives the abort. *)
Lemma name_persists_witness :
  let l := [@Do_start Sample.T; Do_add_dispatcher_head 1%N;
            Do_ms_deliver_dispatch 9%N] in
  let r := (@set_myname Sample.T 5%Z ;;
            invoke_all (DI := Sample.DI) (MI := Sample.MI) (TI := Sample.TI)
                       (AI := SampleRest.AI) (EN := SampleRest.EN) l)
             Sample.fresh in
  Forall (fun c => renames c = false) l /\
  result r = Aborted /\
  result (get_myname (final r)) = Returned 5%Z.
Proof.
  intros l r.
  assert (H : Forall (fun c => renames c = false) l)
    by (repeat constructor).
  split; [exact H |]. split; [reflexivity |].
  exact (proj1 (@name_persists Sample.T Sample.DI Sample.MI Sample.TI
                               SampleRest.AI SampleRest.EN
                               5%Z l Sample.fresh H)).
Defined.

(** Witness of C2: on the chain [1; 2; 3] dispatcher 1 declines the
    stamped message and dispatcher 2, asked next, claims it. *)
Lemma ms_deliver_dispatch_stops_at_first_claim_witness :
  let s := Sample.with_chain [1; 2; 3]%N in
  let ask d := Sample.callback d 9%N in
  dispatchers (self s) = [1%N] ++ 2%N :: [3%N] /\
  declines (T := Sample.T) ask [1%N] 0%nat = true /\
  fst (ask 2%N (world_after (T := Sample.T) ask [1%N] 0%nat)) = true /\
  ms_deliver_dispatch (DI := Sample.DI) (MI := Sample.MI) 9%N s
  = Run (Returned tt) (@mk_sys Sample.T (self s) 2%nat)
        [@Ev_set_dispatch_stamp Sample.T 9%N 0%nat;
         Ev_ms_dispatch 1%N 9%N false; Ev_ms_dispatch 2%N 9%N true].
Proof.
  intros s ask. split; [reflexivity |]. split; [reflexivity |].
  split; [reflexivity |].
  destruct (@ms_deliver_dispatch_stops_at_first_claim
              Sample.T Sample.DI Sample.MI 9%N s) as (_ & H & _).
  exact (H [1%N] 2%N [3%N] eq_refl eq_refl eq_refl).
Defined.

(** Witness of C8: on the chain [1; 2; 3] dispatcher 1 answers [false]
    and dispatcher 2, asked next, answers [true] leaving authorizer 7. *)
Lemma ms_deliver_get_authorizer_stops_at_first_true_witness :
  let s := Sample.with_chain [1; 2; 3]%N in
  dispatchers (self s) = [1%N] ++ 2%N :: [3%N] /\
  authorizer_declines (DI := Sample.DI) 4 false [1%N] NULL 0%nat = true /\
  fst (fst (Sample.get_authorizer 2%N 4 NULL false 1%nat)) = true /\
  ms_deliver_get_authorizer (DI := Sample.DI) 4 false s
  = Run (Returned 7%N) (@mk_sys Sample.T (self s) 2%nat)
        [Ev_ms_get_authorizer 1%N 4 false NULL false NULL;
         Ev_ms_get_authorizer 2%N 4 false NULL true 7%N].
Proof.
  intros s. split; [reflexivity |]. split; [reflexivity |].
  split; [reflexivity |].
  destruct (@ms_deliver_get_authorizer_stops_at_first_true
              Sample.T Sample.DI 4%Z false s) as (_ & H & _).
  exact (H [1%N] 2%N [3%N] eq_refl eq_refl eq_refl).
Defined.

(** Witness of X1: a rename, two insertions, [start()] and the setter,
    which aborts; nobody calls [ready()] by hand. *)
Lemma ready_fired_once_over_any_calls_witness :
  let l := [@Do_set_myname Sample.T 5%Z; Do_add_dispatcher_tail 2%N;
            Do_add_dispatcher_head 1%N; Do_start;
            Do_set_default_send_priority 63] in
  let r := invoke_all (DI := Sample.DI) (MI := Sample.MI) (TI := Sample.TI)
                      (AI := SampleRest.AI) (EN := SampleRest.EN) l
                      Sample.fresh in
  Forall (fun c => calls_ready c = false) l /\
  result r = Aborted /\
  ready_count (trace r) = 1%nat.
Proof.
  intros l r.
  assert (H : Forall (fun c => calls_ready c = false) l)
    by (repeat constructor).
  split; [exact H |]. split; [reflexivity |].
  exact (proj1 (@ready_fired_once_over_any_calls
                  Sample.T Sample.DI Sample.MI Sample.TI SampleRest.AI
                  SampleRest.EN 127%Z 1%N 0%Z 0%nat l H)).
Defined.

(** Witness of X12: on the chain [6; 4] dispatcher 6 writes authorizer 9
    and answers [false]; dispatcher 4 answers [true] and writes nothing. *)
Lemma ms_deliver_get_authorizer_hands_on_witness :
  let s := Sample.with_chain [6; 4]%N in
  dispatchers (self s) = [6%N] ++ 4%N :: [] /\
  authorizer_declines (DI := SampleRest.DI_6) 4 false [6%N] NULL 0%nat
  = true /\
  SampleRest.get_authorizer_6 4%N 4 9%N false 1%nat = ((true, 9%N), 2%nat) /\
  result (ms_deliver_get_authorizer (DI := SampleRest.DI_6) 4 false s)
  = Returned 9%N.
Proof.
  intros s. split; [reflexivity |]. split; [reflexivity |].
  split; [reflexivity |].
  exact (proj1 (@ms_deliver_get_authorizer_hands_on
                  Sample.T SampleRest.DI_6 4%Z false [6%N] 4%N [] s
                  eq_refl eq_refl eq_refl eq_refl)).
Defined.
